(** * Compressed streams of HotSpot: a shallow embedding and its properties

    The development follows [src/hotspot/share/code/compressedStream.cpp].
    It covers the growable write buffer, the derived encodings of the
    byte-aligned streams ([float], [double], [long], signed [int]) and the
    bit-packed ("sparse") streams that spend one bit on a zero word and
    8-bit framed groups of six payload bits on every other word.  It also
    covers the byte swaps of [utilities/byteswap.hpp] and the accessors of
    [utilities/bytes.hpp] over [utilities/unalignedAccess.hpp].

    Conventions.
    - A [u_char*] buffer is a raw pointer: it is embedded as a total map from
      indices to cells, and a cell is read through [load], which yields a
      value of type [u_char].  The sources perform no bounds check.
    - [u_char]/[uint8_t], [juint]/[uint32_t], [jint] and [jlong] values are
      integers of [Z]; every conversion the C++ code performs implicitly is
      written out ([to_u_char], [to_juint], [to_jint], [to_jlong]).
    - Positions and capacities are C++ [int]s, kept in [Z]; the products
      [_size * 2] and [min_expansion * 2] of [grow] are reduced to 32 bits
      ([to_jint]), as the compiled code computes them.
    - [while (true)] of [read_int] is embedded with a bound on the number of
      iterations; [None] means the bound was reached. *)

From Stdlib Require Import ZArith List Lia Bool Btauto.
From coqutil Require Import Z.bitblast.
Import ListNotations.
Local Open Scope Z_scope.

(** ** Machine integers *)

Definition to_u_char (z : Z) : Z := z mod 2 ^ 8.
Definition to_juint (z : Z) : Z := z mod 2 ^ 32.
Definition to_jint (z : Z) : Z := (z + 2 ^ 31) mod 2 ^ 32 - 2 ^ 31.
Definition to_jlong (z : Z) : Z := (z + 2 ^ 63) mod 2 ^ 64 - 2 ^ 63.

Definition is_juint (z : Z) : Prop := 0 <= z < 2 ^ 32.
Definition is_jint (z : Z) : Prop := - 2 ^ 31 <= z < 2 ^ 31.
Definition is_jlong (z : Z) : Prop := - 2 ^ 63 <= z < 2 ^ 63.

(** ** Buffers *)

Definition buffer_t : Type := Z -> Z.

Definition load (m : buffer_t) (i : Z) : Z := to_u_char (m i).

Definition store_at (m : buffer_t) (i : Z) (b : Z) : buffer_t :=
  fun j => if j =? i then to_u_char b else m j.

(** [memcpy(dst, src, n)] on two buffers, both taken from their first cell. *)
Definition memcpy (dst src : buffer_t) (n : Z) : buffer_t :=
  fun j => if (0 <=? j) && (j <? n) then src j else dst j.

(** The cells [lo], ..., [lo + n - 1] of a buffer. *)
Definition bytes_at (m : buffer_t) (lo : Z) (n : nat) : list Z :=
  map (fun k => load m (lo + Z.of_nat k)) (seq 0 n).

(** ** What the sources take from headers outside [src/] *)

(** Modelled from the spec: [UNSIGNED5::MAX_LENGTH] (unsigned5.hpp), "the
    maximum possible width of one encoded scalar", and the allocation macro
    [NEW_RESOURCE_ARRAY(u_char, n)], which returns a fresh array whose
    content is unspecified. *)
Class Runtime : Type := {
  MAX_LENGTH : Z;
  NEW_RESOURCE_ARRAY : Z -> buffer_t
}.

(** Modelled from the spec: the unsigned variable-length primitive of
    [UNSIGNED5] (unsigned5.hpp): [varint_encode] gives the bytes appended
    for a [juint], [varint_decode] reads a value at a cursor and returns it
    with the new cursor; [encode_sign]/[decode_sign] is the sign-fold. *)
Class Unsigned5 : Type := {
  varint_encode : Z -> list Z;
  varint_decode : buffer_t -> Z -> Z * Z;
  encode_sign : Z -> Z;
  decode_sign : Z -> Z
}.

(** Modelled from the spec: [reverse_bits] of moveBits.hpp on 32-bit words. *)
Class MoveBits : Type := {
  reverse_bits : Z -> Z
}.

(** Modelled from the spec: [low], [high] and [jlong_from] of
    globalDefinitions.hpp: the two's-complement halves of a [jlong] and
    their reassembly "high:low". *)
Definition low (value : Z) : Z := to_jint value.
Definition high (value : Z) : Z := to_jint (Z.shiftr value 32).
Definition jlong_from (h l : Z) : Z :=
  to_jlong (Z.lor (Z.shiftl (to_juint h) 32) (to_juint l)).

(** ** CompressedWriteStream *)

Module CompressedWriteStream.

Record t : Type := mk {
  _buffer : buffer_t;
  _position : Z;
  _size : Z
}.

Section WithRuntime.
Context {rt : Runtime}.

(** [CompressedWriteStream(int initial_size)] *)
Definition create (initial_size : Z) : t :=
  {| _buffer := NEW_RESOURCE_ARRAY initial_size;
     _size := initial_size;
     _position := 0 |}.

Definition grow (s : t) : t :=
  let nsize := to_jint (_size s * 2) in
  let min_expansion := MAX_LENGTH in
  let nsize := if nsize <? to_jint (min_expansion * 2)
               then to_jint (min_expansion * 2) else nsize in
  let _new_buffer := NEW_RESOURCE_ARRAY nsize in
  let _new_buffer := memcpy _new_buffer (_buffer s) (_position s) in
  {| _buffer := _new_buffer; _position := _position s; _size := nsize |}.

(** Modelled from the spec: [full], [store] and [write] of
    compressedStream.hpp: a byte is written at the logical position,
    after growing the buffer when it has no room left. *)
Definition full (s : t) : bool := _size s <=? _position s.

Definition store (b : Z) (s : t) : t :=
  {| _buffer := store_at (_buffer s) (_position s) b;
     _position := _position s + 1;
     _size := _size s |}.

Definition write (b : Z) (s : t) : t :=
  store b (if full s then grow s else s).

(** Modelled from the spec: [rollback(p)] sets the logical length. *)
Definition set_position (p : Z) (s : t) : t :=
  {| _buffer := _buffer s; _position := p; _size := _size s |}.

Section WithUnsigned5.
Context {u5 : Unsigned5} {mb : MoveBits}.

(** Modelled from the spec: [write_int] appends the bytes of the
    unsigned variable-length primitive. *)
Definition write_int (value : Z) (s : t) : t :=
  fold_left (fun s b => write b s) (varint_encode value) s.

(** Modelled from the spec: [write_signed_int(v)] is
    [write_int(encode_sign(v))]. *)
Definition write_signed_int (value : Z) (s : t) : t :=
  write_int (to_juint (encode_sign value)) s.

(** A [jfloat] is represented by the [jint] that holds its 32 bits, so
    that [jint_cast] and [jfloat_cast] are the identity. *)
Definition write_float (value : Z) (s : t) : t :=
  let f := to_juint value in
  let rf := to_juint (reverse_bits f) in
  write_int rf s.

(** A [jdouble] is represented by the [jlong] that holds its 64 bits,
    so that [jlong_cast] and [jdouble_cast] are the identity. *)
Definition write_double (value : Z) (s : t) : t :=
  let h := to_juint (high value) in
  let l := to_juint (low value) in
  let rh := to_juint (reverse_bits h) in
  let rl := to_juint (reverse_bits l) in
  let s := write_int rh s in
  write_int rl s.

Definition write_long (value : Z) (s : t) : t :=
  let s := write_signed_int (low value) s in
  write_signed_int (high value) s.
End WithUnsigned5.
End WithRuntime.

End CompressedWriteStream.

(** ** CompressedReadStream *)

Module CompressedReadStream.

Record t : Type := mk {
  _buffer : buffer_t;
  _position : Z
}.

Section WithUnsigned5.
Context {u5 : Unsigned5} {mb : MoveBits}.

(** Modelled from the spec: [read_int] decodes one value of the unsigned
    variable-length primitive at the cursor and returns it as a [jint]. *)
Definition read_int (s : t) : Z * t :=
  let '(v, p) := varint_decode (_buffer s) (_position s) in
  (to_jint v, {| _buffer := _buffer s; _position := p |}).

Definition read_signed_int (s : t) : Z * t :=
  let '(v, s) := read_int s in
  (to_jint (decode_sign (to_juint v)), s).

Definition read_float (s : t) : Z * t :=
  let '(rf, s) := read_int s in
  let f := to_jint (reverse_bits (to_juint rf)) in
  (f, s).

Definition read_double (s : t) : Z * t :=
  let '(rh, s) := read_int s in
  let '(rl, s) := read_int s in
  let h := to_jint (reverse_bits (to_juint rh)) in
  let l := to_jint (reverse_bits (to_juint rl)) in
  (jlong_from h l, s).

Definition read_long (s : t) : Z * t :=
  let '(low, s) := read_signed_int s in
  let '(high, s) := read_signed_int s in
  (jlong_from high low, s).
End WithUnsigned5.

End CompressedReadStream.

(** ** CompressedSparseDataWriteStream *)

Module CompressedSparseDataWriteStream.

(** The class extends [CompressedWriteStream] ([base]) with the bit
    cursor: the pending byte [curr_byte_] (a [u_char]) and the bit offset
    [byte_pos_]. *)
Record t : Type := mk {
  base : CompressedWriteStream.t;
  curr_byte_ : Z;
  byte_pos_ : Z
}.

Definition _position (s : t) : Z := CompressedWriteStream._position (base s).
Definition _buffer (s : t) : buffer_t := CompressedWriteStream._buffer (base s).
Definition _size (s : t) : Z := CompressedWriteStream._size (base s).

Section WithRuntime.
Context {rt : Runtime}.

(** A fresh stream: byte-aligned, nothing pending. *)
Definition create (initial_size : Z) : t :=
  {| base := CompressedWriteStream.create initial_size;
     curr_byte_ := 0;
     byte_pos_ := 0 |}.

(** The inherited [write(u_char)]. *)
Definition write (b : Z) (s : t) : t :=
  {| base := CompressedWriteStream.write b (base s);
     curr_byte_ := curr_byte_ s;
     byte_pos_ := byte_pos_ s |}.

Definition position (s : t) : Z * t :=
  if byte_pos_ s =? 0 then (_position s, s)
  else
    (* flush current data and start a new byte *)
    let s := write (Z.shiftl (curr_byte_ s) (8 - byte_pos_ s)) s in
    let s := {| base := base s; curr_byte_ := 0; byte_pos_ := 0 |} in
    (_position s, s).

Definition write_zero (s : t) : t :=
  (* zero bit represents a zero word *)
  let s := {| base := base s;
              curr_byte_ := to_u_char (Z.shiftl (curr_byte_ s) 1);
              byte_pos_ := byte_pos_ s + 1 |} in
  if byte_pos_ s =? 8 then
    let s := write (curr_byte_ s) s in
    {| base := base s; curr_byte_ := 0; byte_pos_ := 0 |}
  else s.

Definition write_byte_impl (b : Z) (s : t) : t :=
  let b := to_u_char b in
  let s' := write (Z.lor (Z.shiftl (curr_byte_ s) (8 - byte_pos_ s))
                         (Z.shiftr b (byte_pos_ s))) s in
  {| base := base s';
     curr_byte_ := to_u_char (Z.land (Z.shiftr 255 (8 - byte_pos_ s)) b);
     byte_pos_ := byte_pos_ s |}.

(** [for (int i = 5; i > 0; i--)] of [write_int], entered with [i]. *)
Fixpoint write_int_loop (i : nat) (val : Z) (s : t) : t :=
  match i with
  | O => s
  | S j =>
      let v := to_juint (Z.shiftr val (6 * Z.of_nat i)) in
      let s := if v =? 0 then s
               else write_byte_impl (Z.lor 192 (Z.land v 63)) s in
      write_int_loop j val s
  end.

Definition write_int (val : Z) (s : t) : t :=
  if val =? 0 then write_zero s
  else
    let s := write_int_loop 5 val s in
    write_byte_impl (Z.lor 128 (Z.land val 63)) s.

(** Several words, written in order. *)
Definition write_ints (vals : list Z) (s : t) : t :=
  fold_left (fun s val => write_int val s) vals s.
End WithRuntime.

(** The framed 8-bit units [write_int] hands to [write_byte_impl], first
    to last, for a non-zero word: the list view of its loop. *)
Fixpoint groups_loop (i : nat) (val : Z) : list Z :=
  match i with
  | O => []
  | S j =>
      let v := to_juint (Z.shiftr val (6 * Z.of_nat i)) in
      (if v =? 0 then [] else [Z.lor 192 (Z.land v 63)]) ++ groups_loop j val
  end.

Definition groups (val : Z) : list Z :=
  groups_loop 5 val ++ [Z.lor 128 (Z.land val 63)].

End CompressedSparseDataWriteStream.

(** ** CompressedSparseDataReadStream *)

Module CompressedSparseDataReadStream.

Record t : Type := mk {
  _buffer : buffer_t;
  _position : Z;
  byte_pos_ : Z
}.

(** A read stream over [(buffer, position)], byte-aligned. *)
Definition create (buffer : buffer_t) (position : Z) : t :=
  {| _buffer := buffer; _position := position; byte_pos_ := 0 |}.

Definition read_zero (s : t) : bool * t :=
  if negb (Z.land (load (_buffer s) (_position s))
                  (Z.shiftl 1 (7 - byte_pos_ s)) =? 0)
  then (false, s) (* not a zero data *)
  else
    let s := {| _buffer := _buffer s; _position := _position s;
                byte_pos_ := byte_pos_ s + 1 |} in
    if byte_pos_ s =? 8 then
      (true, {| _buffer := _buffer s; _position := _position s + 1;
                byte_pos_ := 0 |})
    else (true, s).

Definition read_byte_impl (s : t) : Z * t :=
  let b1 := to_u_char (Z.shiftl (load (_buffer s) (_position s)) (byte_pos_ s)) in
  let s := {| _buffer := _buffer s; _position := _position s + 1;
              byte_pos_ := byte_pos_ s |} in
  let b2 := to_u_char (Z.shiftr (load (_buffer s) (_position s))
                                (8 - byte_pos_ s)) in
  (Z.lor b1 b2, s).

(** The [while (true)] loop of [read_int], entered with [result]; [fuel]
    bounds the number of groups it may consume. *)
Fixpoint read_int_loop (fuel : nat) (result : Z) (s : t) : option (Z * t) :=
  match fuel with
  | O => None
  | S fuel =>
      let '(b, s) := read_byte_impl s in
      let result := Z.lor (to_juint (Z.shiftl result 6)) (Z.land b 63) in
      if Z.land b 192 =? 128 then Some (to_jint result, s)
      else read_int_loop fuel result s
  end.

Definition read_int (fuel : nat) (s : t) : option (Z * t) :=
  let '(z, s) := read_zero s in
  if z then Some (0, s) else read_int_loop fuel 0 s.

(** [n] words, read in order. *)
Fixpoint read_ints (fuel : nat) (n : nat) (s : t) : option (list Z * t) :=
  match n with
  | O => Some ([], s)
  | S n =>
      match read_int fuel s with
      | None => None
      | Some (v, s) =>
          match read_ints fuel n s with
          | None => None
          | Some (vs, s) => Some (v :: vs, s)
          end
      end
  end.

End CompressedSparseDataReadStream.

(** ** Short names, invariants and sample data *)

Module WS := CompressedWriteStream.

Module SW := CompressedSparseDataWriteStream.

Module SR := CompressedSparseDataReadStream.

Definition cursor_inv (s : SW.t) : Prop :=
  0 <= SW.byte_pos_ s < 8 /\ 0 <= SW.curr_byte_ s < 2 ^ SW.byte_pos_ s.

Definition sees (lo : Z) (m : buffer_t) (s : SW.t) : Prop :=
  (forall j, lo <= j < SW._position s -> load m j = load (SW._buffer s) j) /\
  (SW.byte_pos_ s <> 0 ->
   Z.shiftr (load m (SW._position s)) (8 - SW.byte_pos_ s) = SW.curr_byte_ s).

Definition reader_at (m : buffer_t) (s : SW.t) : SR.t :=
  {| SR._buffer := m; SR._position := SW._position s; SR.byte_pos_ := SW.byte_pos_ s |}.

Definition write_groups {rt : Runtime} (gs : list Z) (s : SW.t) : SW.t :=
  fold_left (fun s g => SW.write_byte_impl g s) gs s.

Definition decode_groups (gs : list Z) (result : Z) : Z :=
  fold_left (fun r g => Z.lor (to_juint (Z.shiftl r 6)) (Z.land (to_u_char g) 63)) gs result.

Definition sample_runtime : Runtime :=
  {| MAX_LENGTH := 5; NEW_RESOURCE_ARRAY := fun _ _ => 0 |}.

Module RS := CompressedReadStream.

Definition varint_round_trips (u5 : Unsigned5) : Prop :=
  forall v m p,
    is_juint v ->
    (forall i, (i < length (varint_encode v))%nat ->
       load m (p + Z.of_nat i) = to_u_char (nth i (varint_encode v) 0)) ->
    varint_decode m p = (v, p + Z.of_nat (length (varint_encode v))).

Definition reverse_bits_involutive (mb : MoveBits) : Prop :=
  forall x, is_juint x -> to_juint (reverse_bits (to_juint (reverse_bits x))) = x.

Definition sign_fold_inverse (u5 : Unsigned5) : Prop :=
  forall v, is_jint v -> to_jint (decode_sign (to_juint (encode_sign v))) = v.

(** A fixed-width stand-in for the variable-length primitive (four bytes,
    most significant first) with the zig-zag sign fold. *)
Definition sample_unsigned5 : Unsigned5 :=
  {| varint_encode := fun v => [Z.shiftr v 24; Z.shiftr v 16; Z.shiftr v 8; v];
     varint_decode := fun m p =>
       (Z.lor (Z.shiftl (load m p) 24)
          (Z.lor (Z.shiftl (load m (p + 1)) 16)
             (Z.lor (Z.shiftl (load m (p + 2)) 8) (load m (p + 3)))),
        p + 4);
     encode_sign := fun v => Z.lxor (Z.shiftl v 1) (Z.shiftr v 31);
     decode_sign := fun u => Z.lxor (Z.shiftr u 1) (- Z.land u 1) |}.

(** Bit reversal of a 32-bit word, through its list of bits. *)
Definition bits32 (x : Z) : list bool :=
  map (fun i => Z.testbit x (Z.of_nat i)) (seq 0 32).

Definition of_bits (l : list bool) : Z :=
  fold_right (fun b acc => 2 * acc + Z.b2z b) 0 l.

Definition sample_move_bits : MoveBits :=
  {| reverse_bits := fun x => of_bits (rev (bits32 x)) |}.

Definition sample_words : list Z := [0; 255; 4294967295; 0; 1; 4096].

Definition sample_stream : SW.t := @SW.create sample_runtime 2.

Definition sample_byte_stream : WS.t := @WS.create sample_runtime 2.

(** A full stream of capacity [2^30]. *)
Definition sample_huge_stream : WS.t :=
  {| WS._buffer := fun _ => 0; WS._position := 1073741824;
     WS._size := 1073741824 |}.

Definition sample_flushed : SW.t :=
  snd (@SW.position sample_runtime
         (@SW.write_ints sample_runtime sample_words sample_stream)).

(** A reader over a buffer whose cells all hold [0x81]. *)
Definition sample_reader : SR.t := SR.create (fun _ => 129) 0.

(** The position of the bit cursor of a write stream, in bits. *)
Definition bit_cursor (s : SW.t) : Z := 8 * SW._position s + SW.byte_pos_ s.

(** The number of bits [write_int] spends on a word: one bit for zero, one
    framed 8-bit unit per group otherwise. *)
Definition encoded_bits (val : Z) : Z :=
  if val =? 0 then 1 else 8 * Z.of_nat (length (SW.groups val)).

Definition total_bits (vals : list Z) : Z :=
  fold_right (fun val acc => encoded_bits val + acc) 0 vals.

(** The logical position lies within the capacity. *)
Definition buffer_inv (s : WS.t) : Prop :=
  0 <= WS._position s <= WS._size s.

(** The position of the bit cursor of a read stream, in bits. *)
Definition read_bit_cursor (s : SR.t) : Z := 8 * SR._position s + SR.byte_pos_ s.

(** ** byteswap.hpp *)

(** Conversion to the unsigned and to the signed integer type of [bits]
    bits. *)
Definition to_uint (bits z : Z) : Z := z mod 2 ^ bits.
Definition to_sint (bits z : Z) : Z :=
  (z + 2 ^ (bits - 1)) mod 2 ^ bits - 2 ^ (bits - 1).

(** The portable branch of [Byteswap16Impl], [Byteswap32Impl] and
    [Byteswap64Impl]; the other branches call the compiler's or the
    platform's byte swap. *)
Definition Byteswap16Impl (x : Z) : Z :=
  to_uint 16 (Z.lor (Z.shiftl (Z.land x 255) 8) (Z.shiftr (Z.land x 65280) 8)).

Definition Byteswap32Impl (x : Z) : Z :=
  to_uint 32
    (Z.lor (Z.lor (Z.lor (Z.shiftl (Z.land x 255) 24)
                         (Z.shiftl (Z.land x 65280) 8))
                  (Z.shiftr (Z.land x 16711680) 8))
           (Z.shiftr (Z.land x 4278190080) 24)).

Definition Byteswap64Impl (x : Z) : Z :=
  to_uint 64
    (Z.lor (Z.lor (Z.lor (Z.lor (Z.lor (Z.lor (Z.lor
       (Z.shiftl (Z.land x 255) 56)
       (Z.shiftl (Z.land x 65280) 40))
       (Z.shiftl (Z.land x 16711680) 24))
       (Z.shiftl (Z.land x 4278190080) 8))
       (Z.shiftr (Z.land x 1095216660480) 8))
       (Z.shiftr (Z.land x 280375465082880) 24))
       (Z.shiftr (Z.land x 71776119061217280) 40))
       (Z.shiftr (Z.land x 18374686479671623680) 56)).

(** An integral type [T] that [CanByteswapImpl] accepts: its size in bytes
    (1, 2, 4 or 8) and its signedness. *)
Inductive int_size : Type := Size1 | Size2 | Size4 | Size8.

Record int_type : Type := IntType { size_of : int_size; is_signed : bool }.

Definition bytes_of (n : int_size) : Z :=
  match n with Size1 => 1 | Size2 => 2 | Size4 => 4 | Size8 => 8 end.

Definition static_cast (T : int_type) (z : Z) : Z :=
  if is_signed T then to_sint (8 * bytes_of (size_of T)) z
  else to_uint (8 * bytes_of (size_of T)) z.

(** The values of type [T]. *)
Definition in_range (T : int_type) (z : Z) : Prop := static_cast T z = z.

(** [ByteswapImpl<T, sizeof(T)>] *)
Definition ByteswapImpl (T : int_type) (x : Z) : Z :=
  match size_of T with
  | Size1 => x
  | Size2 => static_cast T (Byteswap16Impl (to_uint 16 x))
  | Size4 => static_cast T (Byteswap32Impl (to_uint 32 x))
  | Size8 => static_cast T (Byteswap64Impl (to_uint 64 x))
  end.

Definition byteswap (T : int_type) (x : Z) : Z := ByteswapImpl T x.

(** Byte [k] of an integer, counted from the least significant one. *)
Definition byte_of (k z : Z) : Z := Z.land (Z.shiftr z (8 * k)) 255.

(** The byte swap of an unsigned integer of [n] bytes. *)
Definition swap_unsigned (n : int_size) (x : Z) : Z :=
  match n with
  | Size1 => x
  | Size2 => Byteswap16Impl x
  | Size4 => Byteswap32Impl x
  | Size8 => Byteswap64Impl x
  end.

(** ** bytes.hpp and unalignedAccess.hpp *)

Module Endian.

Inductive Order : Type := LITTLE | BIG.

Definition JAVA : Order := BIG.

Definition eqb (a b : Order) : bool :=
  match a, b with
  | LITTLE, LITTLE | BIG, BIG => true
  | _, _ => false
  end.

End Endian.

(** The byte order of the machine: [Endian::NATIVE] is [LITTLE] when the
    build defines [VM_LITTLE_ENDIAN] and [BIG] otherwise. *)
Class Platform : Type := { NATIVE : Endian.Order }.

Definition is_Java_byte_ordering_different {pf : Platform} : bool :=
  negb (Endian.eqb NATIVE Endian.JAVA).

(** [BytesSwapImpl<T, D>] at [D = Endian::is_Java_byte_ordering_different()]. *)
Definition BytesSwapImpl {pf : Platform} (T : int_type) (x : Z) : Z :=
  if is_Java_byte_ordering_different then byteswap T x else x.

(** The value of an unsigned integer from its bytes, least significant
    first, and back. *)
Definition le_value (bs : list Z) : Z :=
  fold_right (fun b acc => Z.lor b (Z.shiftl acc 8)) 0 bs.

Definition le_bytes (n : nat) (x : Z) : list Z :=
  map (fun k => byte_of (Z.of_nat k) x) (seq 0 n).

(** The object representation of an unsigned integer of [n] bytes, in
    address order: what [memcpy] moves between the integer and the buffer. *)
Definition object_bytes {pf : Platform} (n : nat) (x : Z) : list Z :=
  match NATIVE with
  | Endian.LITTLE => le_bytes n x
  | Endian.BIG => rev (le_bytes n x)
  end.

Definition object_value {pf : Platform} (bs : list Z) : Z :=
  match NATIVE with
  | Endian.LITTLE => le_value bs
  | Endian.BIG => le_value (rev bs)
  end.

(** [memcpy(p, src, n)] from a list of bytes into a buffer at [p]. *)
Definition store_bytes (m : buffer_t) (p : Z) (bs : list Z) : buffer_t :=
  fun j =>
    if (p <=? j) && (j <? p + Z.of_nat (length bs))
    then to_u_char (nth (Z.to_nat (j - p)) bs 0)
    else m j.

Module UnalignedAccess.

Section WithPlatform.
Context {pf : Platform}.

(** [UnalignedAccess::load<T>(p)] and [UnalignedAccess::store<T>(p, x)] for
    an unsigned [T] of [n] bytes; [p] is a buffer and an index. *)
Definition load (n : int_size) (m : buffer_t) (p : Z) : Z :=
  object_value (bytes_at m p (Z.to_nat (bytes_of n))).

Definition store (n : int_size) (m : buffer_t) (p : Z) (x : Z) : buffer_t :=
  store_bytes m p (object_bytes (Z.to_nat (bytes_of n)) x).

End WithPlatform.

End UnalignedAccess.

Module Bytes.

Section WithPlatform.
Context {pf : Platform}.

Definition u2 : int_type := IntType Size2 false.
Definition u4 : int_type := IntType Size4 false.
Definition u8 : int_type := IntType Size8 false.

Definition get_native_u2 (m : buffer_t) (p : Z) : Z := UnalignedAccess.load Size2 m p.
Definition get_native_u4 (m : buffer_t) (p : Z) : Z := UnalignedAccess.load Size4 m p.
Definition get_native_u8 (m : buffer_t) (p : Z) : Z := UnalignedAccess.load Size8 m p.

Definition put_native_u2 (m : buffer_t) (p : Z) (x : Z) : buffer_t :=
  UnalignedAccess.store Size2 m p x.
Definition put_native_u4 (m : buffer_t) (p : Z) (x : Z) : buffer_t :=
  UnalignedAccess.store Size4 m p x.
Definition put_native_u8 (m : buffer_t) (p : Z) (x : Z) : buffer_t :=
  UnalignedAccess.store Size8 m p x.

Definition get_Java_u2 (m : buffer_t) (p : Z) : Z := BytesSwapImpl u2 (get_native_u2 m p).
Definition get_Java_u4 (m : buffer_t) (p : Z) : Z := BytesSwapImpl u4 (get_native_u4 m p).
Definition get_Java_u8 (m : buffer_t) (p : Z) : Z := BytesSwapImpl u8 (get_native_u8 m p).

Definition put_Java_u2 (m : buffer_t) (p : Z) (x : Z) : buffer_t :=
  put_native_u2 m p (BytesSwapImpl u2 x).
Definition put_Java_u4 (m : buffer_t) (p : Z) (x : Z) : buffer_t :=
  put_native_u4 m p (BytesSwapImpl u4 x).
Definition put_Java_u8 (m : buffer_t) (p : Z) (x : Z) : buffer_t :=
  put_native_u8 m p (BytesSwapImpl u8 x).

Definition swap_u2 (x : Z) : Z := byteswap u2 x.
Definition swap_u4 (x : Z) : Z := byteswap u4 x.
Definition swap_u8 (x : Z) : Z := byteswap u8 x.

End WithPlatform.

End Bytes.

(** The value of an unsigned integer from its bytes, most significant
    first: the byte order of Java. *)
Definition be_value (bs : list Z) : Z := le_value (rev bs).

(** The access functions of [Bytes] at a size. *)
Definition get_Java {pf : Platform} (n : int_size) (m : buffer_t) (p : Z) : Z :=
  BytesSwapImpl (IntType n false) (UnalignedAccess.load n m p).

Definition put_Java {pf : Platform} (n : int_size) (m : buffer_t) (p x : Z) : buffer_t :=
  UnalignedAccess.store n m p (BytesSwapImpl (IntType n false) x).

(** A stream that already holds one word. *)
Definition sample_started : SW.t := @SW.write_int sample_runtime 255 sample_stream.

(** Readers over a buffer of [0xFF] cells and over a buffer of zero cells. *)
Definition sample_ones_reader : SR.t := SR.create (fun _ => 255) 0.
Definition sample_zero_reader : SR.t := SR.create (fun _ => 0) 0.

(** * Properties *)

(** ** Bytes and bits *)

Lemma to_u_char_range z : 0 <= to_u_char z < 256.
Proof. unfold to_u_char. change (2 ^ 8) with 256. apply Z.mod_pos_bound. lia. Qed.

Lemma to_u_char_small z : 0 <= z < 256 -> to_u_char z = z.
Proof. intros. unfold to_u_char. apply Z.mod_small. change (2 ^ 8) with 256. lia. Qed.

Lemma to_u_char_idem z : to_u_char (to_u_char z) = to_u_char z.
Proof. apply to_u_char_small, to_u_char_range. Qed.

Lemma testbit_above (p c i : Z) :
  0 <= p -> 0 <= c < 2 ^ p -> p <= i -> Z.testbit c i = false.
Proof.
  intros Hp Hc Hi. rewrite <- (Z.mod_small c (2 ^ p)) by assumption.
  apply Z.mod_pow2_bits_high. lia.
Qed.

Lemma land_bit_test a k :
  0 <= k -> (Z.land a (Z.shiftl 1 k) =? 0) = negb (Z.testbit a k).
Proof.
  intros Hk. rewrite Z.shiftl_1_l.
  destruct (Z.testbit a k) eqn:E; simpl.
  - apply Z.eqb_neq. intros H.
    assert (Z.testbit (Z.land a (2 ^ k)) k = true) as H0.
    { rewrite Z.land_spec, E, Z.pow2_bits_true by lia. reflexivity. }
    rewrite H, Z.bits_0 in H0. discriminate.
  - apply Z.eqb_eq. apply Z.bits_inj'. intros i Hi.
    rewrite Z.land_spec, Z.bits_0, Z.pow2_bits_eqb by lia.
    destruct (Z.eqb_spec k i) as [->|]; [rewrite E|]; auto using andb_false_r.
Qed.

Ltac bit_finish :=
  repeat match goal with
    | |- context [Z.testbit ?a ?i] => rewrite (Z.testbit_neg_r a i) by lia
    | |- context [Z.testbit (?a mod 2 ^ ?n) ?i] =>
        rewrite (Z.testbit_mod_pow2 a n i) by lia
    | H : 0 <= ?c < 2 ^ ?p |- context [Z.testbit ?c ?i] =>
        rewrite (testbit_above p c i) by lia
    | |- context [?a <? ?b] => destruct (Z.ltb_spec a b); try lia
    end;
  simpl; try btauto.

Ltac bits := Z.bitblast; bit_finish.

(** The byte [write_byte_impl] completes keeps the pending bits on top. *)
Lemma splice_top p c b :
  0 <= p < 8 -> 0 <= c < 2 ^ p ->
  Z.shiftr (to_u_char (Z.lor (Z.shiftl c (8 - p)) (Z.shiftr (to_u_char b) p)))
           (8 - p) = c.
Proof.
  intros Hp Hc. unfold to_u_char.
  bits.
Qed.

(** Splicing the completed byte with the carried bits gives the group back. *)
Lemma splice_read p c b :
  0 <= p < 8 -> 0 <= c < 2 ^ p ->
  Z.lor (to_u_char (Z.shiftl (to_u_char (Z.lor (Z.shiftl c (8 - p))
                                               (Z.shiftr (to_u_char b) p))) p))
        (to_u_char (to_u_char (Z.land (Z.shiftr 255 (8 - p)) (to_u_char b))))
  = to_u_char b.
Proof.
  intros Hp Hc. unfold to_u_char. change 255 with (Z.ones 8).
  bits.
Qed.

Lemma splice_first_bit p c b :
  0 <= p < 8 -> 0 <= c < 2 ^ p ->
  Z.testbit (to_u_char (Z.lor (Z.shiftl c (8 - p)) (Z.shiftr (to_u_char b) p)))
            (7 - p) = Z.testbit (to_u_char b) 7.
Proof.
  intros Hp Hc. unfold to_u_char.
  rewrite !Z.testbit_mod_pow2, Z.lor_spec, Z.shiftl_spec, Z.shiftr_spec,
    Z.testbit_mod_pow2 by lia.
  rewrite Z.testbit_neg_r by lia.
  replace (7 - p + p) with 7 by lia.
  replace (7 - p <? 8) with true by (symmetry; apply Z.ltb_lt; lia).
  reflexivity.
Qed.

Lemma carry_range p b :
  0 <= p < 8 -> 0 <= to_u_char (Z.land (Z.shiftr 255 (8 - p)) (to_u_char b)) < 2 ^ p.
Proof.
  intros Hp.
  assert (Z.shiftr 255 (8 - p) = Z.ones p) as ->.
  { change 255 with (Z.ones 8). Z.bitblast. }
  rewrite Z.land_comm, Z.land_ones by lia.
  assert (0 < 2 ^ p) by (apply Z.pow_pos_nonneg; lia).
  assert (2 ^ p <= 2 ^ 7) by (apply Z.pow_le_mono_r; lia).
  change (2 ^ 7) with 128 in *.
  pose proof (Z.mod_pos_bound (to_u_char b) (2 ^ p)).
  rewrite to_u_char_small; lia.
Qed.

Lemma flush_top p c :
  0 <= p < 8 -> 0 <= c < 2 ^ p ->
  Z.shiftr (to_u_char (Z.shiftl c (8 - p))) (8 - p) = c.
Proof.
  intros Hp Hc. unfold to_u_char.
  bits.
Qed.

Lemma zero_shift c p :
  0 <= p < 8 -> 0 <= c < 2 ^ p -> to_u_char (Z.shiftl c 1) = 2 * c.
Proof.
  intros Hp Hc. rewrite Z.shiftl_mul_pow2 by lia. change (2 ^ 1) with 2.
  assert (2 ^ p <= 2 ^ 7) by (apply Z.pow_le_mono_r; lia).
  change (2 ^ 7) with 128 in *.
  rewrite to_u_char_small; lia.
Qed.

Lemma shiftr_byte_8 y : 0 <= y < 256 -> Z.shiftr y 8 = 0.
Proof.
  intros. rewrite Z.shiftr_div_pow2 by lia. change (2 ^ 8) with 256.
  apply Z.div_small. lia.
Qed.

(** A byte whose top [p + 1] bits are [2 * c] has [c] as its top [p] bits and
    a clear bit next. *)
Lemma zero_bit_top y p c :
  0 <= p < 7 -> Z.shiftr y (8 - (p + 1)) = 2 * c ->
  Z.shiftr y (8 - p) = c /\ Z.testbit y (7 - p) = false.
Proof.
  intros Hp H. split.
  - replace (8 - p) with (8 - (p + 1) + 1) by lia.
    rewrite <- Z.shiftr_shiftr, H by lia.
    rewrite Z.shiftr_div_pow2 by lia. change (2 ^ 1) with 2.
    rewrite Z.mul_comm. apply Z.div_mul. lia.
  - replace (7 - p) with (0 + (8 - (p + 1))) by lia.
    rewrite <- Z.shiftr_spec, H by lia.
    apply Z.testbit_even_0.
Qed.

Lemma load_range m i : 0 <= load m i < 256.
Proof. apply to_u_char_range. Qed.

Lemma load_store_at_same m i b : load (store_at m i b) i = to_u_char b.
Proof. unfold load, store_at. rewrite Z.eqb_refl. apply to_u_char_idem. Qed.

Lemma load_store_at_other m i b j : j <> i -> load (store_at m i b) j = load m j.
Proof.
  intros H. unfold load, store_at.
  destruct (Z.eqb_spec j i); [contradiction | reflexivity].
Qed.

Lemma load_memcpy_below dst src n j :
  0 <= j < n -> load (memcpy dst src n) j = load src j.
Proof.
  intros H. unfold load, memcpy.
  destruct (Z.leb_spec 0 j), (Z.ltb_spec j n); simpl; try lia; reflexivity.
Qed.

Section WriteStream.
Context {rt : Runtime}.

Lemma grow_position s : WS._position (WS.grow s) = WS._position s.
Proof. reflexivity. Qed.

Lemma grow_load_below s j :
  0 <= j < WS._position s ->
  load (WS._buffer (WS.grow s)) j = load (WS._buffer s) j.
Proof. intros H. unfold WS.grow; simpl. now apply load_memcpy_below. Qed.

(** The new capacity, when neither product of [grow] overflows an [int]. *)
Lemma grow_size s :
  is_jint (WS._size s * 2) -> is_jint (MAX_LENGTH * 2) ->
  WS._size (WS.grow s) = Z.max (2 * WS._size s) (2 * MAX_LENGTH).
Proof.
  unfold is_jint. intros Hs Hm. unfold WS.grow; cbv zeta; cbn [WS._size].
  assert (to_jint (WS._size s * 2) = WS._size s * 2) as ->
    by (unfold to_jint; rewrite Z.mod_small; lia).
  assert (to_jint (MAX_LENGTH * 2) = MAX_LENGTH * 2) as ->
    by (unfold to_jint; rewrite Z.mod_small; lia).
  destruct (Z.ltb_spec (WS._size s * 2) (MAX_LENGTH * 2)); lia.
Qed.

Lemma write_position b s : WS._position (WS.write b s) = WS._position s + 1.
Proof. unfold WS.write, WS.store. destruct (WS.full s); reflexivity. Qed.

Lemma write_load_same b s :
  load (WS._buffer (WS.write b s)) (WS._position s) = to_u_char b.
Proof.
  unfold WS.write, WS.store.
  destruct (WS.full s); simpl; apply load_store_at_same.
Qed.

Lemma write_load_below b s j :
  0 <= j < WS._position s ->
  load (WS._buffer (WS.write b s)) j = load (WS._buffer s) j.
Proof.
  intros H. unfold WS.write, WS.store.
  destruct (WS.full s); simpl.
  - rewrite load_store_at_other by lia. now apply load_memcpy_below.
  - apply load_store_at_other. lia.
Qed.
End WriteStream.

Ltac sw_simpl :=
  unfold sees, reader_at, SW._position, SW._buffer, SW._size, SW.write in *;
  cbn [SW.base SW.curr_byte_ SW.byte_pos_ fst snd] in *.

Section SparseWrite.
Context {rt : Runtime}.

Lemma sw_write_position b s : SW._position (SW.write b s) = SW._position s + 1.
Proof. apply write_position. Qed.

Lemma sw_write_load_same b s :
  load (SW._buffer (SW.write b s)) (SW._position s) = to_u_char b.
Proof. apply write_load_same. Qed.

Lemma sw_write_load_below b s j :
  0 <= j < SW._position s ->
  load (SW._buffer (SW.write b s)) j = load (SW._buffer s) j.
Proof. apply write_load_below. Qed.

(** *** The bit cursor *)

Lemma write_zero_cursor s :
  cursor_inv s ->
  cursor_inv (SW.write_zero s) /\
  SW.curr_byte_ (SW.write_zero s) = (if SW.byte_pos_ s =? 7 then 0 else 2 * SW.curr_byte_ s) /\
  SW.byte_pos_ (SW.write_zero s) = (if SW.byte_pos_ s =? 7 then 0 else SW.byte_pos_ s + 1) /\
  SW._position (SW.write_zero s) =
    (if SW.byte_pos_ s =? 7 then SW._position s + 1 else SW._position s).
Proof.
  intros [Hp Hc]. unfold cursor_inv, SW.write_zero.
  cbn [SW.curr_byte_ SW.byte_pos_ SW.base].
  rewrite (zero_shift _ _ Hp Hc).
  destruct (Z.eqb_spec (SW.byte_pos_ s) 7) as [E|E].
  - rewrite E. change (7 + 1 =? 8) with true. cbv iota.
    cbn [SW.curr_byte_ SW.byte_pos_ SW.base SW._position].
    change (2 ^ 0) with 1.
    sw_simpl. rewrite write_position. repeat split; lia.
  - destruct (Z.eqb_spec (SW.byte_pos_ s + 1) 8); [lia|].
    cbn [SW.curr_byte_ SW.byte_pos_ SW.base SW._position].
    rewrite Z.pow_add_r by lia. change (2 ^ 1) with 2. repeat split; lia.
Qed.

Lemma write_zero_inv s : cursor_inv s -> cursor_inv (SW.write_zero s).
Proof. intros H. apply (write_zero_cursor s H). Qed.

Lemma write_byte_impl_inv b s : cursor_inv s -> cursor_inv (SW.write_byte_impl b s).
Proof.
  intros [Hp Hc]. unfold cursor_inv, SW.write_byte_impl; simpl.
  split; [assumption | now apply carry_range].
Qed.

Lemma write_byte_impl_position b s :
  SW._position (SW.write_byte_impl b s) = SW._position s + 1.
Proof. unfold SW.write_byte_impl. sw_simpl. apply write_position. Qed.

Lemma write_byte_impl_byte_pos b s :
  SW.byte_pos_ (SW.write_byte_impl b s) = SW.byte_pos_ s.
Proof. reflexivity. Qed.

Lemma position_inv s : cursor_inv s -> cursor_inv (snd (SW.position s)).
Proof.
  intros H. unfold SW.position.
  destruct (SW.byte_pos_ s =? 0); [assumption|].
  unfold cursor_inv; simpl. lia.
Qed.

Lemma position_aligned s : SW.byte_pos_ s = 0 ->  SW.position s = (SW._position s, s).
Proof. intros H. unfold SW.position. now rewrite H. Qed.

Lemma write_int_loop_inv i val s :
  cursor_inv s -> cursor_inv (SW.write_int_loop i val s).
Proof.
  revert s. induction i as [|i IH]; intros s H; [assumption|].
  cbn [SW.write_int_loop]. apply IH.
  destruct (_ =? 0); [assumption | now apply write_byte_impl_inv].
Qed.

Lemma write_int_inv val s : cursor_inv s -> cursor_inv (SW.write_int val s).
Proof.
  intros H. unfold SW.write_int. destruct (val =? 0).
  - now apply write_zero_inv.
  - now apply write_byte_impl_inv, write_int_loop_inv.
Qed.

Lemma write_ints_inv vals s : cursor_inv s -> cursor_inv (SW.write_ints vals s).
Proof.
  revert s. induction vals as [|v vals IH]; intros s H; [assumption|].
  apply IH. now apply write_int_inv.
Qed.

Lemma write_groups_inv gs s : cursor_inv s -> cursor_inv (write_groups gs s).
Proof.
  revert s. induction gs as [|g gs IH]; intros s H; [assumption|].
  apply IH. now apply write_byte_impl_inv.
Qed.

Lemma write_groups_position gs s :
  SW._position (write_groups gs s) = SW._position s + Z.of_nat (length gs).
Proof.
  revert s. induction gs as [|g gs IH]; intros s; simpl; [lia|].
  unfold write_groups in *. simpl. rewrite IH, write_byte_impl_position. lia.
Qed.

Lemma write_groups_byte_pos gs s :
  SW.byte_pos_ (write_groups gs s) = SW.byte_pos_ s.
Proof.
  revert s. induction gs as [|g gs IH]; intros s; simpl; [reflexivity|].
  unfold write_groups in *. simpl. now rewrite IH.
Qed.

(** [write_int] on a non-zero word writes its groups in order. *)
Lemma write_int_loop_groups i val s :
  SW.write_int_loop i val s = write_groups (SW.groups_loop i val) s.
Proof.
  revert s. induction i as [|i IH]; intros s; [reflexivity|].
  cbn [SW.write_int_loop SW.groups_loop]. rewrite IH.
  unfold write_groups. rewrite fold_left_app.
  destruct (_ =? 0); reflexivity.
Qed.

Lemma write_int_groups val s :
  val <> 0 -> SW.write_int val s = write_groups (SW.groups val) s.
Proof.
  intros H. unfold SW.write_int, SW.groups.
  destruct (Z.eqb_spec val 0); [contradiction|].
  rewrite write_int_loop_groups. unfold write_groups.
  now rewrite fold_left_app.
Qed.
End SparseWrite.

Section SparseRoundTrip.
Context {rt : Runtime}.

Lemma write_zero_flush s :
  SW.byte_pos_ s = 7 ->
  SW.write_zero s =
  {| SW.base := WS.write (to_u_char (Z.shiftl (SW.curr_byte_ s) 1)) (SW.base s);
     SW.curr_byte_ := 0; SW.byte_pos_ := 0 |}.
Proof. intros E. unfold SW.write_zero. sw_simpl. rewrite E. reflexivity. Qed.

Lemma write_zero_pending s :
  SW.byte_pos_ s <> 7 ->
  SW.write_zero s =
  {| SW.base := SW.base s;
     SW.curr_byte_ := to_u_char (Z.shiftl (SW.curr_byte_ s) 1);
     SW.byte_pos_ := SW.byte_pos_ s + 1 |}.
Proof.
  intros E. unfold SW.write_zero. sw_simpl.
  destruct (Z.eqb_spec (SW.byte_pos_ s + 1) 8); [lia | reflexivity].
Qed.

Lemma position_flush s :
  SW.byte_pos_ s <> 0 ->
  SW.position s =
  (WS._position (SW.base s) + 1,
   {| SW.base := WS.write (Z.shiftl (SW.curr_byte_ s) (8 - SW.byte_pos_ s)) (SW.base s);
      SW.curr_byte_ := 0; SW.byte_pos_ := 0 |}).
Proof.
  intros E. unfold SW.position. sw_simpl.
  destruct (Z.eqb_spec (SW.byte_pos_ s) 0); [contradiction|].
  now rewrite write_position.
Qed.

(** *** What a reader of the finished buffer sees of an earlier state *)

Lemma sees_write_byte_impl lo m b s :
  0 <= lo <= SW._position s -> cursor_inv s ->
  sees lo m (SW.write_byte_impl b s) -> sees lo m s.
Proof.
  intros Hlo [Hp Hc] [A B]. rewrite write_byte_impl_position in A.
  unfold SW.write_byte_impl in A. sw_simpl. split.
  - intros j Hj. rewrite A by lia. apply write_load_below. lia.
  - intros _. rewrite A, write_load_same by lia. now apply splice_top.
Qed.

Lemma sees_write_zero lo m s :
  0 <= lo <= SW._position s -> cursor_inv s ->
  sees lo m (SW.write_zero s) -> sees lo m s.
Proof.
  intros Hlo [Hp Hc]. destruct (Z.eq_dec (SW.byte_pos_ s) 7) as [E|E].
  - rewrite (write_zero_flush s E). intros [A _]. sw_simpl.
    rewrite write_position in A. split.
    + intros j Hj. rewrite A by lia. apply write_load_below. lia.
    + intros _. rewrite A, write_load_same, (zero_shift _ _ Hp Hc) by lia.
      rewrite E in *. change (2 ^ 7) with 128 in Hc.
      rewrite to_u_char_small by lia. change (8 - 7) with 1.
      rewrite Z.shiftr_div_pow2 by lia. change (2 ^ 1) with 2.
      rewrite Z.mul_comm. apply Z.div_mul. lia.
  - rewrite (write_zero_pending s E). intros [A B]. sw_simpl. split; [exact A|].
    intros _. rewrite (zero_shift _ _ Hp Hc) in B.
    apply (zero_bit_top _ (SW.byte_pos_ s) _); [lia|]. apply B. lia.
Qed.

Lemma sees_position lo m s :
  0 <= lo <= SW._position s -> cursor_inv s ->
  sees lo m (snd (SW.position s)) -> sees lo m s.
Proof.
  intros Hlo [Hp Hc]. destruct (Z.eq_dec (SW.byte_pos_ s) 0) as [E|E].
  - now rewrite (position_aligned s E).
  - rewrite (position_flush s E). intros [A _]. sw_simpl.
    rewrite write_position in A. split.
    + intros j Hj. rewrite A by lia. apply write_load_below. lia.
    + intros _. rewrite A, write_load_same by lia. now apply flush_top.
Qed.

Lemma write_zero_position_le s :
  cursor_inv s -> SW._position s <= SW._position (SW.write_zero s).
Proof.
  intros H. destruct (write_zero_cursor s H) as (_ & _ & _ & ->).
  destruct (_ =? 7); lia.
Qed.

Lemma sees_write_groups lo m gs s :
  0 <= lo <= SW._position s -> cursor_inv s ->
  sees lo m (write_groups gs s) -> sees lo m s.
Proof.
  revert s. induction gs as [|g gs IH]; intros s Hlo Hinv H; [exact H|].
  apply (sees_write_byte_impl lo m g); [assumption..|].
  apply IH; [rewrite write_byte_impl_position; lia | |exact H].
  now apply write_byte_impl_inv.
Qed.

Lemma write_int_position_le val s :
  cursor_inv s -> SW._position s <= SW._position (SW.write_int val s).
Proof.
  intros H. destruct (Z.eq_dec val 0) as [->|E].
  - now apply write_zero_position_le.
  - rewrite write_int_groups, write_groups_position by assumption. lia.
Qed.

Lemma sees_write_int lo m val s :
  0 <= lo <= SW._position s -> cursor_inv s ->
  sees lo m (SW.write_int val s) -> sees lo m s.
Proof.
  intros Hlo Hinv. destruct (Z.eq_dec val 0) as [->|E].
  - now apply sees_write_zero.
  - rewrite write_int_groups by assumption. now apply sees_write_groups.
Qed.

Lemma sees_write_ints lo m vals s :
  0 <= lo <= SW._position s -> cursor_inv s ->
  sees lo m (SW.write_ints vals s) -> sees lo m s.
Proof.
  revert s. induction vals as [|v vals IH]; intros s Hlo Hinv H; [exact H|].
  apply (sees_write_int lo m v); [assumption..|].
  apply IH; [|now apply write_int_inv|exact H].
  pose proof (write_int_position_le v s Hinv). lia.
Qed.

(** *** One step of the reader against one step of the writer *)

Lemma read_zero_write_zero lo m s :
  0 <= lo <= SW._position s -> cursor_inv s ->
  sees lo m (SW.write_zero s) ->
  SR.read_zero (reader_at m s) = (true, reader_at m (SW.write_zero s)).
Proof.
  intros Hlo [Hp Hc] H. unfold SR.read_zero, reader_at.
  cbn [SR._buffer SR._position SR.byte_pos_].
  rewrite land_bit_test by lia.
  destruct (Z.eq_dec (SW.byte_pos_ s) 7) as [E|E].
  - rewrite (write_zero_flush s E) in *. destruct H as [A _]. sw_simpl.
    rewrite write_position in *.
    rewrite A, write_load_same, (zero_shift _ _ Hp Hc) by lia.
    rewrite E in *. change (2 ^ 7) with 128 in Hc.
    rewrite to_u_char_small by lia. change (7 - 7) with 0.
    rewrite Z.testbit_even_0. reflexivity.
  - rewrite (write_zero_pending s E) in *. destruct H as [_ B]. sw_simpl.
    rewrite (zero_shift _ _ Hp Hc) in B.
    destruct (zero_bit_top _ (SW.byte_pos_ s) _ ltac:(lia) (B ltac:(lia))) as [_ ->].
    cbn [negb]. destruct (Z.eqb_spec (SW.byte_pos_ s + 1) 8); [lia | reflexivity].
Qed.

Lemma read_byte_impl_write_byte_impl lo m b s :
  0 <= lo <= SW._position s -> cursor_inv s ->
  sees lo m (SW.write_byte_impl b s) ->
  SR.read_byte_impl (reader_at m s) =
  (to_u_char b, reader_at m (SW.write_byte_impl b s)).
Proof.
  intros Hlo [Hp Hc] [A B]. unfold SR.read_byte_impl, reader_at.
  cbn [SR._buffer SR._position SR.byte_pos_].
  rewrite write_byte_impl_position in *. rewrite write_byte_impl_byte_pos in *.
  f_equal.
  assert (load m (SW._position s) =
          to_u_char (Z.lor (Z.shiftl (SW.curr_byte_ s) (8 - SW.byte_pos_ s))
                           (Z.shiftr (to_u_char b) (SW.byte_pos_ s)))) as ->.
  { rewrite A by lia. unfold SW.write_byte_impl. sw_simpl. apply write_load_same. }
  assert (Z.shiftr (load m (SW._position s + 1)) (8 - SW.byte_pos_ s) =
          to_u_char (Z.land (Z.shiftr 255 (8 - SW.byte_pos_ s)) (to_u_char b))) as ->.
  { destruct (Z.eq_dec (SW.byte_pos_ s) 0) as [E|E].
    - rewrite E. change (8 - 0) with 8. rewrite shiftr_byte_8 by apply load_range.
      reflexivity.
    - now apply B. }
  now apply splice_read.
Qed.

Lemma read_zero_first_group lo m b s :
  0 <= lo <= SW._position s -> cursor_inv s ->
  sees lo m (SW.write_byte_impl b s) ->
  Z.testbit (to_u_char b) 7 = true ->
  SR.read_zero (reader_at m s) = (false, reader_at m s).
Proof.
  intros Hlo [Hp Hc] [A _] Hb. unfold SR.read_zero, reader_at.
  cbn [SR._buffer SR._position SR.byte_pos_].
  rewrite land_bit_test by lia.
  rewrite write_byte_impl_position in A. rewrite A by lia.
  unfold SW.write_byte_impl. sw_simpl.
  rewrite write_load_same, splice_first_bit, Hb by assumption. reflexivity.
Qed.
End SparseRoundTrip.

(** ** The framed groups of a word *)

Lemma forallb_below (P : Z -> bool) (n : nat) :
  forallb P (map Z.of_nat (seq 0 n)) = true ->
  forall x, 0 <= x < Z.of_nat n -> P x = true.
Proof.
  intros H x Hx. rewrite forallb_forall in H. apply H.
  apply in_map_iff. exists (Z.to_nat x). split; [lia|].
  apply in_seq. lia.
Qed.

Lemma land_63_range v : 0 <= Z.land v 63 < 64.
Proof.
  change 63 with (Z.ones 6). rewrite Z.land_ones by lia.
  change (2 ^ 6) with 64. apply Z.mod_pos_bound. lia.
Qed.

(** A non-final group: marker [11], payload kept. *)
Lemma nonfinal_group x :
  0 <= x < 64 ->
  to_u_char (Z.lor 192 x) = Z.lor 192 x /\
  Z.land (Z.lor 192 x) 192 = 192 /\
  Z.land (Z.lor 192 x) 63 = x /\
  Z.testbit (Z.lor 192 x) 7 = true.
Proof.
  intros Hx.
  pose proof (forallb_below
    (fun x => (to_u_char (Z.lor 192 x) =? Z.lor 192 x) &&
              (Z.land (Z.lor 192 x) 192 =? 192) &&
              (Z.land (Z.lor 192 x) 63 =? x) &&
              Z.testbit (Z.lor 192 x) 7) 64 eq_refl x Hx) as H.
  cbv beta in H. rewrite !andb_true_iff, !Z.eqb_eq in H. tauto.
Qed.

(** The final group: marker [10], payload kept. *)
Lemma final_group x :
  0 <= x < 64 ->
  to_u_char (Z.lor 128 x) = Z.lor 128 x /\
  Z.land (Z.lor 128 x) 192 = 128 /\
  Z.land (Z.lor 128 x) 63 = x /\
  Z.testbit (Z.lor 128 x) 7 = true.
Proof.
  intros Hx.
  pose proof (forallb_below
    (fun x => (to_u_char (Z.lor 128 x) =? Z.lor 128 x) &&
              (Z.land (Z.lor 128 x) 192 =? 128) &&
              (Z.land (Z.lor 128 x) 63 =? x) &&
              Z.testbit (Z.lor 128 x) 7) 64 eq_refl x Hx) as H.
  cbv beta in H. rewrite !andb_true_iff, !Z.eqb_eq in H. tauto.
Qed.

Lemma shiftr_juint val k :
  is_juint val -> 0 <= k -> to_juint (Z.shiftr val k) = Z.shiftr val k.
Proof.
  unfold is_juint, to_juint. intros Hv Hk. apply Z.mod_small.
  rewrite Z.shiftr_div_pow2 by lia.
  assert (0 < 2 ^ k) by (apply Z.pow_pos_nonneg; lia).
  split; [apply Z.div_pos; lia|].
  apply Z.le_lt_trans with val; [|lia].
  apply Z.div_le_upper_bound; nia.
Qed.

(** Six more payload bits recombine with the bits above them. *)
Lemma recombine x :
  is_juint x ->
  Z.lor (to_juint (Z.shiftl (Z.shiftr x 6) 6)) (Z.land x 63) = x.
Proof.
  unfold is_juint, to_juint. intros Hx.
  rewrite <- (Z.mod_small x (2 ^ 32)) at 3 by assumption.
  change 63 with (Z.ones 6). bits.
Qed.

Lemma groups_loop_length i val : (length (SW.groups_loop i val) <= i)%nat.
Proof.
  induction i as [|i IH]; [apply le_n|].
  cbn [SW.groups_loop]. rewrite length_app.
  destruct (_ =? 0); simpl; lia.
Qed.

Lemma groups_loop_markers i val g :
  In g (SW.groups_loop i val) ->
  to_u_char g = g /\ Z.land g 192 = 192 /\ Z.testbit g 7 = true.
Proof.
  induction i as [|i IH]; [contradiction|].
  cbn [SW.groups_loop]. rewrite in_app_iff. intros [H|H]; [|now apply IH].
  destruct (_ =? 0); [contradiction|].
  destruct H as [<-|[]].
  pose proof (nonfinal_group _ (land_63_range
    (to_juint (Z.shiftr val (6 * Z.of_nat (S i)))))). tauto.
Qed.

Lemma decode_groups_app gs1 gs2 result :
  decode_groups (gs1 ++ gs2) result = decode_groups gs2 (decode_groups gs1 result).
Proof. apply fold_left_app. Qed.

Lemma decode_groups_loop i val :
  is_juint val ->
  decode_groups (SW.groups_loop i val) (Z.shiftr val (6 * (Z.of_nat i + 1)))
  = Z.shiftr val 6.
Proof.
  intros Hv. induction i as [|i IH]; [reflexivity|].
  cbn [SW.groups_loop]. rewrite decode_groups_app.
  rewrite shiftr_juint by (assumption || lia).
  replace (6 * (Z.of_nat (S i) + 1)) with (6 * Z.of_nat (S i) + 6) by lia.
  rewrite <- Z.shiftr_shiftr by lia.
  set (v := Z.shiftr val (6 * Z.of_nat (S i))).
  assert (is_juint v) as Hjv.
  { unfold v. rewrite <- shiftr_juint by (assumption || lia).
    unfold to_juint. apply Z.mod_pos_bound. lia. }
  assert (decode_groups (if v =? 0 then [] else [Z.lor 192 (Z.land v 63)])
            (Z.shiftr v 6) = v) as ->.
  { destruct (Z.eqb_spec v 0) as [E|E].
    - rewrite E. reflexivity.
    - unfold decode_groups. cbn [fold_left].
      destruct (nonfinal_group _ (land_63_range v)) as (-> & _ & -> & _).
      now apply recombine. }
  unfold v. replace (6 * Z.of_nat (S i)) with (6 * (Z.of_nat i + 1)) by lia.
  exact IH.
Qed.

Lemma decode_groups_word val :
  is_juint val -> decode_groups (SW.groups val) 0 = val.
Proof.
  intros Hv. unfold SW.groups. rewrite decode_groups_app.
  assert (Z.shiftr val (6 * (Z.of_nat 5 + 1)) = 0) as E.
  { rewrite Z.shiftr_div_pow2 by lia. apply Z.div_small.
    unfold is_juint in Hv. change (2 ^ 32) with 4294967296 in Hv.
    change (2 ^ (6 * (Z.of_nat 5 + 1))) with 68719476736. lia. }
  rewrite <- E, decode_groups_loop by assumption.
  unfold decode_groups. cbn [fold_left].
  destruct (final_group _ (land_63_range val)) as (-> & _ & -> & _).
  now apply recombine.
Qed.

Lemma to_jint_juint v : to_juint (to_jint v) = to_juint v.
Proof.
  unfold to_juint, to_jint.
  rewrite Zminus_mod_idemp_l.
  replace (v + 2 ^ 31 - 2 ^ 31) with v by lia. reflexivity.
Qed.

Lemma to_juint_small v : is_juint v -> to_juint v = v.
Proof. intros H. now apply Z.mod_small. Qed.

Section SparseWords.
Context {rt : Runtime}.

(** The reader's loop consumes the groups of one word, however the
    groups straddle the bytes of the buffer. *)
Lemma read_int_loop_groups lo m fin pre :
  forall s result fuel,
  0 <= lo <= SW._position s -> cursor_inv s ->
  sees lo m (write_groups (pre ++ [fin]) s) ->
  (forall g, In g pre -> Z.land (to_u_char g) 192 <> 128) ->
  Z.land (to_u_char fin) 192 = 128 ->
  SR.read_int_loop (length pre + S fuel) result (reader_at m s) =
  Some (to_jint (decode_groups (pre ++ [fin]) result),
        reader_at m (write_groups (pre ++ [fin]) s)).
Proof.
  induction pre as [|g pre IH]; intros s result fuel Hlo Hinv Hsee Hpre Hfin.
  - cbn [length Nat.add app] in *. cbn [SR.read_int_loop].
    unfold write_groups in *. cbn [fold_left] in *.
    rewrite (read_byte_impl_write_byte_impl lo m fin s) by assumption.
    rewrite Hfin. reflexivity.
  - cbn [length Nat.add app] in *. cbn [SR.read_int_loop].
    assert (cursor_inv (SW.write_byte_impl g s)) as Hinv'
      by now apply write_byte_impl_inv.
    assert (0 <= lo <= SW._position (SW.write_byte_impl g s)) as Hlo'
      by (rewrite write_byte_impl_position; lia).
    change (write_groups (g :: pre ++ [fin]) s)
      with (write_groups (pre ++ [fin]) (SW.write_byte_impl g s)) in *.
    rewrite (read_byte_impl_write_byte_impl lo m g s);
      [|assumption..|now apply (sees_write_groups lo m (pre ++ [fin]))].
    destruct (Z.eqb_spec (Z.land (to_u_char g) 192) 128) as [E|_].
    + exfalso. apply (Hpre g); [now left | exact E].
    + rewrite IH; [reflexivity|assumption..| |assumption].
      intros g' Hg'. apply Hpre. now right.
Qed.

Lemma read_int_write_int lo m val s fuel :
  is_juint val -> 0 <= lo <= SW._position s -> cursor_inv s ->
  sees lo m (SW.write_int val s) ->
  (length (SW.groups val) <= fuel)%nat ->
  SR.read_int fuel (reader_at m s) =
  Some (to_jint val, reader_at m (SW.write_int val s)).
Proof.
  intros Hv Hlo Hinv Hsee Hfuel. unfold SR.read_int.
  destruct (Z.eq_dec val 0) as [->|Hnz].
  - now rewrite (read_zero_write_zero lo m s).
  - rewrite write_int_groups in * by assumption.
    destruct (final_group _ (land_63_range val)) as (Hf1 & Hf2 & _ & Hf4).
    assert (SR.read_zero (reader_at m s) = (false, reader_at m s)) as ->.
    { unfold SW.groups in Hsee.
      destruct (SW.groups_loop 5 val) as [|g pre] eqn:E; cbn [app] in Hsee.
      - apply (read_zero_first_group lo m (Z.lor 128 (Z.land val 63)));
          [assumption..|exact Hsee|now rewrite Hf1].
      - assert (In g (SW.groups_loop 5 val)) as Hin by (rewrite E; now left).
        apply groups_loop_markers in Hin. destruct Hin as (Hg & _ & Hg7).
        apply (read_zero_first_group lo m g); [assumption..| |now rewrite Hg].
        apply (sees_write_groups lo m (pre ++ [Z.lor 128 (Z.land val 63)]));
          [rewrite write_byte_impl_position; lia
          |now apply write_byte_impl_inv|exact Hsee]. }
    unfold SW.groups in *. rewrite length_app in Hfuel. cbn [length] in Hfuel.
    replace fuel with (length (SW.groups_loop 5 val) +
                       S (fuel - length (SW.groups_loop 5 val) - 1))%nat by lia.
    rewrite (read_int_loop_groups lo m (Z.lor 128 (Z.land val 63))
               (SW.groups_loop 5 val));
      [|assumption..| |now rewrite Hf1].
    + fold (SW.groups val). now rewrite decode_groups_word.
    + intros g Hg. apply groups_loop_markers in Hg.
      destruct Hg as (-> & -> & _). discriminate.
Qed.

Lemma groups_length val : (length (SW.groups val) <= 6)%nat.
Proof.
  unfold SW.groups. rewrite length_app. cbn [length].
  pose proof (groups_loop_length 5 val). lia.
Qed.

Lemma read_ints_write_ints lo m fuel vals :
  forall s,
  Forall is_juint vals -> 0 <= lo <= SW._position s -> cursor_inv s ->
  sees lo m (SW.write_ints vals s) -> (6 <= fuel)%nat ->
  SR.read_ints fuel (length vals) (reader_at m s) =
  Some (map to_jint vals, reader_at m (SW.write_ints vals s)).
Proof.
  induction vals as [|v vals IH]; intros s Hall Hlo Hinv Hsee Hfuel;
    [reflexivity|].
  inversion Hall as [|? ? Hv Hvals]; subst.
  cbn [length SR.read_ints map].
  change (SW.write_ints (v :: vals) s)
    with (SW.write_ints vals (SW.write_int v s)) in *.
  assert (cursor_inv (SW.write_int v s)) as Hinv' by now apply write_int_inv.
  pose proof (write_int_position_le v s Hinv) as Hle.
  rewrite (read_int_write_int lo m v s); try assumption.
  - rewrite IH; [reflexivity|assumption|lia|assumption..].
  - apply (sees_write_ints lo m vals); [lia|assumption..].
  - pose proof (groups_length v). lia.
Qed.

Lemma position_result s :
  fst (SW.position s) = SW._position (snd (SW.position s)) /\
  SW.byte_pos_ (snd (SW.position s)) = 0.
Proof.
  destruct (Z.eq_dec (SW.byte_pos_ s) 0) as [E|E].
  - now rewrite position_aligned.
  - rewrite position_flush by assumption. sw_simpl.
    now rewrite write_position.
Qed.

(** A buffer that agrees with the flushed stream contains all it wrote. *)
Lemma sees_flushed lo m s :
  0 <= lo <= SW._position s -> cursor_inv s ->
  (forall j, lo <= j < fst (SW.position s) ->
             load m j = load (SW._buffer (snd (SW.position s))) j) ->
  sees lo m s.
Proof.
  intros Hlo Hinv H. apply sees_position; [assumption..|].
  destruct (position_result s) as [E1 E2]. split.
  - intros j Hj. apply H. rewrite E1. exact Hj.
  - intros C. now contradiction C.
Qed.
End SparseWords.

Section SparseClaims.
Context {rt : Runtime}.

Lemma groups_loop_skip i val k :
  is_juint val -> (1 <= k)%nat -> val < 2 ^ (6 * Z.of_nat k) ->
  (length (SW.groups_loop i val) <= k - 1)%nat.
Proof.
  intros Hv Hk Hlt. induction i as [|i IH]; [simpl; lia|].
  destruct (Nat.lt_ge_cases (S i) k) as [Hik|Hik].
  - pose proof (groups_loop_length (S i) val). lia.
  - cbn [SW.groups_loop]. rewrite length_app.
    assert (to_juint (Z.shiftr val (6 * Z.of_nat (S i))) = 0) as ->.
    { rewrite shiftr_juint by (assumption || lia).
      rewrite Z.shiftr_div_pow2 by lia. apply Z.div_small.
      split; [apply Hv|].
      apply Z.lt_le_trans with (2 ^ (6 * Z.of_nat k)); [assumption|].
      apply Z.pow_le_mono_r; lia. }
    simpl. exact IH.
Qed.

Lemma create_inv n : cursor_inv (SW.create n).
Proof. unfold cursor_inv, SW.create; simpl. lia. Qed.

Lemma write_zero_load_below s j :
  0 <= j < SW._position s ->
  load (SW._buffer (SW.write_zero s)) j = load (SW._buffer s) j.
Proof.
  intros Hj. destruct (Z.eq_dec (SW.byte_pos_ s) 7) as [E|E].
  - rewrite write_zero_flush by assumption. sw_simpl. now apply write_load_below.
  - now rewrite write_zero_pending.
Qed.

(** After [n] zero words from a byte-aligned cursor. *)
Lemma write_zeros_state n s :
  SW.byte_pos_ s = 0 -> SW.curr_byte_ s = 0 -> 0 <= SW._position s ->
  let s' := SW.write_ints (repeat 0 n) s in
  SW.byte_pos_ s' = Z.of_nat n mod 8 /\
  SW.curr_byte_ s' = 0 /\
  SW._position s' = SW._position s + Z.of_nat n / 8 /\
  (forall j, SW._position s <= j < SW._position s' ->
             load (SW._buffer s') j = 0).
Proof.
  intros Hp Hc Hpos. induction n as [|n IH].
  - cbn. rewrite Hp, Hc. repeat split; try lia.
  - assert (repeat 0 (S n) = repeat 0 n ++ [0]) as ->
      by apply (repeat_cons n 0).
    unfold SW.write_ints in *. rewrite fold_left_app. cbn [fold_left].
    set (s1 := fold_left (fun s val => SW.write_int val s) (repeat 0 n) s) in *.
    cbv zeta in IH. destruct IH as (Ep & Ec & Epos & Ez).
    change (SW.write_int 0 s1) with (SW.write_zero s1).
    assert (cursor_inv s1) as Hinv.
    { unfold cursor_inv. rewrite Ep, Ec.
      pose proof (Z.mod_pos_bound (Z.of_nat n) 8 ltac:(lia)).
      split; [lia|]. split; [lia|]. apply Z.pow_pos_nonneg; lia. }
    destruct (write_zero_cursor s1 Hinv) as (_ & Ec' & Ep' & Epos').
    rewrite Ec', Ep', Epos', Ep, Ec, Epos.
    assert (0 <= Z.of_nat n / 8) by (apply Z.div_pos; lia).
    destruct (Z.eqb_spec (Z.of_nat n mod 8) 7) as [E|E];
      (split; [|split; [lia|split]]);
      try (Z.to_euclidean_division_equations; lia).
    + intros j Hj.
      assert (j < SW._position s1 \/ j = SW._position s1) as [Hlt| ->] by lia.
      * rewrite write_zero_load_below by lia. apply Ez. lia.
      * rewrite write_zero_flush by lia. sw_simpl.
        rewrite write_load_same, Ec. reflexivity.
    + intros j Hj. rewrite write_zero_load_below by lia. apply Ez. lia.
Qed.
End SparseClaims.

Lemma bytes_at_zero m lo n :
  (forall j, lo <= j < lo + Z.of_nat n -> load m j = 0) ->
  bytes_at m lo n = repeat 0 n.
Proof.
  intros H. unfold bytes_at.
  transitivity (map (fun _ : nat => 0) (seq 0 n)).
  - apply map_ext_in. intros k Hk. apply in_seq in Hk. apply H. lia.
  - now rewrite map_const, length_seq.
Qed.

Lemma to_jint_juint_round val : is_juint val -> to_juint (to_jint val) = val.
Proof. intros H. now rewrite to_jint_juint, to_juint_small. Qed.

Section Claims.
Context {rt : Runtime}.

(** C1: round trip of the bit-packed codec.  For every finite sequence of
    unsigned 32-bit words, written in order with [write_int] from a stream
    whose bit cursor is well formed (at any bit offset) and then aligned
    with [position], a reader that starts at the same byte and bit offset
    of any buffer holding the written bytes gets the words back with
    [read_int], in the same order, as the [jint]s with the same 32 bits,
    and ends where the writer stood before the flush. *)
Theorem sparse_round_trip (vals : list Z) (s : SW.t) (m : buffer_t) :
  Forall is_juint vals ->
  cursor_inv s -> 0 <= SW._position s ->
  (forall j, SW._position s <= j < fst (SW.position (SW.write_ints vals s)) ->
     load m j = load (SW._buffer (snd (SW.position (SW.write_ints vals s)))) j) ->
  SR.read_ints 6 (length vals)
    {| SR._buffer := m; SR._position := SW._position s;
       SR.byte_pos_ := SW.byte_pos_ s |} =
  Some (map to_jint vals,
        {| SR._buffer := m;
           SR._position := SW._position (SW.write_ints vals s);
           SR.byte_pos_ := SW.byte_pos_ (SW.write_ints vals s) |}) /\
  map to_juint (map to_jint vals) = vals.
Proof.
  intros Hall Hinv Hpos Hm. split.
  - apply (read_ints_write_ints (SW._position s) m 6 vals s);
      [assumption|lia|assumption| |lia].
    apply sees_flushed; [|now apply write_ints_inv|exact Hm].
    clear Hm. revert s Hinv Hpos.
    induction vals as [|v vals IH]; intros s Hinv Hpos; [simpl; lia|].
    inversion Hall as [|? ? Hv Hvals]; subst.
    change (SW.write_ints (v :: vals) s)
      with (SW.write_ints vals (SW.write_int v s)).
    pose proof (write_int_position_le v s Hinv) as Hle.
    assert (0 <= SW._position (SW.write_int v s)) as Hpos' by lia.
    specialize (IH Hvals (SW.write_int v s) (write_int_inv v s Hinv) Hpos').
    lia.
  - clear Hm. rewrite map_map.
    induction Hall as [|v vals Hv _ IH]; [reflexivity|].
    cbn [map]. f_equal; [now apply to_jint_juint_round | exact IH].
Qed.

(** C6: every operation of the bit-packed write stream keeps the invariant
    of the bit cursor: [byte_pos_] stays in [0, 8), [curr_byte_] holds only
    the [byte_pos_] pending low bits, and at [byte_pos_ = 0] the
    accumulator is empty. *)
Theorem bit_cursor_invariant (s : SW.t) :
  cursor_inv s ->
  cursor_inv (SW.write_zero s) /\
  (forall b, cursor_inv (SW.write_byte_impl b s)) /\
  (forall val, cursor_inv (SW.write_int val s)) /\
  cursor_inv (snd (SW.position s)) /\
  (SW.byte_pos_ s = 0 -> SW.curr_byte_ s = 0).
Proof.
  intros H. split; [now apply write_zero_inv|].
  split; [intros b; now apply write_byte_impl_inv|].
  split; [intros val; now apply write_int_inv|].
  split; [now apply position_inv|].
  intros E. destruct H as [_ H]. rewrite E in H. change (2 ^ 0) with 1 in H. lia.
Qed.

(** C5: [n] consecutive zero words written from a byte-aligned cursor with
    an empty accumulator, then [position], occupy exactly [ceil(n/8)]
    bytes, each of them [0x00]. *)
Theorem zero_run_compact (n : nat) (s : SW.t) :
  SW.byte_pos_ s = 0 -> SW.curr_byte_ s = 0 -> 0 <= SW._position s ->
  fst (SW.position (SW.write_ints (repeat 0 n) s)) =
    SW._position s + (Z.of_nat n + 7) / 8 /\
  bytes_at (SW._buffer (snd (SW.position (SW.write_ints (repeat 0 n) s))))
           (SW._position s) (Z.to_nat ((Z.of_nat n + 7) / 8)) =
    repeat 0 (Z.to_nat ((Z.of_nat n + 7) / 8)).
Proof.
  intros Hp Hc Hpos.
  destruct (write_zeros_state n s Hp Hc Hpos) as (Ep & Ec & Epos & Ez).
  set (s' := SW.write_ints (repeat 0 n) s) in *.
  assert (0 <= Z.of_nat n / 8) by (apply Z.div_pos; lia).
  destruct (Z.eq_dec (Z.of_nat n mod 8) 0) as [E|E].
  - rewrite position_aligned by lia. cbn [fst snd].
    assert ((Z.of_nat n + 7) / 8 = Z.of_nat n / 8) as ->
      by (Z.to_euclidean_division_equations; lia).
    split; [lia|]. apply bytes_at_zero. intros j Hj. apply Ez. lia.
  - rewrite position_flush by lia. cbn [fst snd].
    assert ((Z.of_nat n + 7) / 8 = Z.of_nat n / 8 + 1) as ->
      by (Z.to_euclidean_division_equations; lia).
    sw_simpl. split; [lia|]. apply bytes_at_zero. intros j Hj.
    assert (j < WS._position (SW.base s') \/ j = WS._position (SW.base s'))
      as [Hlt| ->] by lia.
    + rewrite write_load_below by lia. apply Ez. lia.
    + now rewrite write_load_same, Ec, Z.shiftl_0_l.
Qed.

(** C9 (amended): when the doubled capacity and [2 * MAX_LENGTH] fit in an
    [int], [grow] makes the capacity [max (2 * _size) (2 * MAX_LENGTH)], so
    at least twice the old one and at least [2 * MAX_LENGTH], keeps the
    first [_position] bytes and leaves the logical position unchanged. *)
Theorem grow_doubles_and_preserves (s : WS.t) :
  is_jint (WS._size s * 2) -> is_jint (MAX_LENGTH * 2) ->
  WS._size (WS.grow s) = Z.max (2 * WS._size s) (2 * MAX_LENGTH) /\
  2 * WS._size s <= WS._size (WS.grow s) /\
  2 * MAX_LENGTH <= WS._size (WS.grow s) /\
  WS._position (WS.grow s) = WS._position s /\
  (forall j, 0 <= j < WS._position s ->
     load (WS._buffer (WS.grow s)) j = load (WS._buffer s) j).
Proof.
  intros Hs Hm. pose proof (grow_size s Hs Hm) as E.
  split; [exact E|]. split; [lia|]. split; [lia|].
  split; [reflexivity|]. intros j Hj. now apply grow_load_below.
Qed.

(** C9, as stated, fails where [_size * 2] overflows: a stream of capacity
    [2^30] is given the capacity 10. *)
Lemma grow_overflow_counterexample :
  WS._size (@WS.grow sample_runtime sample_huge_stream) = 10 /\
  ~ (2 * WS._size sample_huge_stream <=
     WS._size (@WS.grow sample_runtime sample_huge_stream)).
Proof.
  assert (WS._size (@WS.grow sample_runtime sample_huge_stream) = 10) as E
    by (vm_compute; reflexivity).
  split; [exact E|]. rewrite E. cbn [WS._size sample_huge_stream]. lia.
Qed.

(** C4: for a non-zero unsigned 32-bit word [write_int] writes the framed
    units [groups val]: at most five groups with marker [11] (none for a
    leading group that is zero) and one final group with marker [10], six
    units at most, one byte each; [read_int] on what was written returns
    the word after consuming exactly these groups. *)
Theorem write_int_at_most_six_groups (val : Z) (s : SW.t) (m : buffer_t) :
  is_juint val -> val <> 0 ->
  cursor_inv s -> 0 <= SW._position s ->
  (forall j, SW._position s <= j < fst (SW.position (SW.write_int val s)) ->
     load m j = load (SW._buffer (snd (SW.position (SW.write_int val s)))) j) ->
  SW.write_int val s = write_groups (SW.groups val) s /\
  (1 <= length (SW.groups val) <= 6)%nat /\
  (exists pre,
     SW.groups val = pre ++ [Z.lor 128 (Z.land val 63)] /\
     (length pre <= 5)%nat /\
     Forall (fun g => 0 <= g < 256 /\ Z.land g 192 = 192) pre /\
     (0 <= Z.lor 128 (Z.land val 63) < 256 /\
      Z.land (Z.lor 128 (Z.land val 63)) 192 = 128) /\
     (forall k, (1 <= k)%nat -> val < 2 ^ (6 * Z.of_nat k) ->
                (length pre <= k - 1)%nat)) /\
  SW._position (SW.write_int val s) =
    SW._position s + Z.of_nat (length (SW.groups val)) /\
  SW.byte_pos_ (SW.write_int val s) = SW.byte_pos_ s /\
  SR.read_int (length (SW.groups val))
    {| SR._buffer := m; SR._position := SW._position s;
       SR.byte_pos_ := SW.byte_pos_ s |} =
  Some (to_jint val,
        {| SR._buffer := m;
           SR._position := SW._position s + Z.of_nat (length (SW.groups val));
           SR.byte_pos_ := SW.byte_pos_ s |}).
Proof.
  intros Hv Hnz Hinv Hpos Hm.
  pose proof (write_int_groups val s Hnz) as Hg.
  pose proof (groups_length val) as Hlen.
  split; [exact Hg|]. split.
  { split; [|exact Hlen]. unfold SW.groups. rewrite length_app. cbn [length]. lia. }
  split.
  { exists (SW.groups_loop 5 val). split; [reflexivity|].
    split; [apply groups_loop_length|]. split; [|split].
    - apply Forall_forall. intros g Hin.
      apply groups_loop_markers in Hin. destruct Hin as (E & ? & _).
      split; [|assumption]. rewrite <- E. apply to_u_char_range.
    - destruct (final_group _ (land_63_range val)) as (E & ? & _).
      split; [|assumption]. rewrite <- E. apply to_u_char_range.
    - intros k Hk Hlt. now apply groups_loop_skip. }
  rewrite Hg, write_groups_position, write_groups_byte_pos.
  split; [reflexivity|]. split; [reflexivity|].
  pose proof (read_int_write_int (SW._position s) m val s
                (length (SW.groups val)) Hv) as R.
  unfold reader_at in R.
  rewrite R; [|lia|assumption| |lia].
  - now rewrite Hg, write_groups_position, write_groups_byte_pos.
  - apply sees_flushed; [|now apply write_int_inv|exact Hm].
    pose proof (write_int_position_le val s Hinv). lia.
Qed.
End Claims.

(** C10: at [byte_pos_ = 0] [read_byte_impl] returns the byte under the
    cursor and advances by one byte; its result and the resulting cursor do
    not depend on any other cell of the buffer, the following one included. *)
Theorem read_byte_impl_aligned (s : SR.t) :
  SR.byte_pos_ s = 0 ->
  SR.read_byte_impl s =
    (load (SR._buffer s) (SR._position s),
     {| SR._buffer := SR._buffer s; SR._position := SR._position s + 1;
        SR.byte_pos_ := 0 |}) /\
  (forall m' : buffer_t,
     load m' (SR._position s) = load (SR._buffer s) (SR._position s) ->
     fst (SR.read_byte_impl {| SR._buffer := m'; SR._position := SR._position s;
                               SR.byte_pos_ := 0 |}) =
       fst (SR.read_byte_impl s) /\
     SR._position (snd (SR.read_byte_impl
        {| SR._buffer := m'; SR._position := SR._position s; SR.byte_pos_ := 0 |})) =
       SR._position (snd (SR.read_byte_impl s)) /\
     SR.byte_pos_ (snd (SR.read_byte_impl
        {| SR._buffer := m'; SR._position := SR._position s; SR.byte_pos_ := 0 |})) =
       SR.byte_pos_ (snd (SR.read_byte_impl s))).
Proof.
  intros E.
  assert (forall m p, SR.read_byte_impl
            {| SR._buffer := m; SR._position := p; SR.byte_pos_ := 0 |} =
          (load m p, {| SR._buffer := m; SR._position := p + 1; SR.byte_pos_ := 0 |})) as R.
  { intros m p. unfold SR.read_byte_impl. cbn [SR._buffer SR._position SR.byte_pos_].
    change (8 - 0) with 8.
    rewrite Z.shiftl_0_r, shiftr_byte_8 by apply load_range.
    rewrite (to_u_char_small (load m p)) by apply load_range.
    change (to_u_char 0) with 0. now rewrite Z.lor_0_r. }
  destruct s as [m p bp]. cbn [SR._buffer SR._position SR.byte_pos_] in *. subst bp.
  split; [apply R|]. intros m' Hm'. rewrite !R. cbn [fst snd SR._position SR.byte_pos_].
  auto.
Qed.

(** C3: what [write_int(0xff)] writes on a fresh stream of capacity 100:
    the two bytes [0xC3; 0xBF], which differ from [0xFF; 0x03]. *)
Theorem write_int_0xFF_bytes (rt : Runtime) :
  fst (SW.position (SW.write_int 255 (SW.create 100))) = 2 /\
  bytes_at (SW._buffer (snd (SW.position (SW.write_int 255 (SW.create 100))))) 0 2
    = [195; 191] /\
  bytes_at (SW._buffer (snd (SW.position (SW.write_int 255 (SW.create 100))))) 0 2
    <> [255; 3].
Proof. vm_compute. split; [reflexivity|]. split; [reflexivity|discriminate]. Qed.

(** C2: what [write_int(0xffffffff)] writes on a fresh stream of capacity
    100: the six bytes [0xC3; 0xFF; 0xFF; 0xFF; 0xFF; 0xBF], not five. *)
Theorem write_int_0xFFFFFFFF_bytes (rt : Runtime) :
  fst (SW.position (SW.write_int 4294967295 (SW.create 100))) = 6 /\
  bytes_at (SW._buffer (snd (SW.position (SW.write_int 4294967295 (SW.create 100))))) 0 6
    = [195; 255; 255; 255; 255; 191].
Proof. vm_compute. split; reflexivity. Qed.

Lemma to_juint_range z : is_juint (to_juint z).
Proof. unfold is_juint, to_juint. apply Z.mod_pos_bound. lia. Qed.

Lemma to_jint_range z : is_jint (to_jint z).
Proof.
  unfold is_jint, to_jint.
  pose proof (Z.mod_pos_bound (z + 2 ^ 31) (2 ^ 32) ltac:(lia)). lia.
Qed.

Lemma to_juint_jint v : to_jint (to_juint v) = to_jint v.
Proof.
  unfold to_juint, to_jint. f_equal.
  rewrite Zplus_mod_idemp_l. reflexivity.
Qed.

Lemma to_jint_small v : is_jint v -> to_jint v = v.
Proof.
  unfold is_jint, to_jint. intros H.
  rewrite Z.mod_small; lia.
Qed.

(** The halves of a [jlong] reassemble to it. *)
Lemma jlong_from_high_low value :
  is_jlong value -> jlong_from (high value) (low value) = value.
Proof.
  unfold is_jlong, jlong_from, high, low. intros H.
  rewrite !to_jint_juint. unfold to_juint, to_jlong.
  rewrite Z.shiftl_mul_pow2, Z.shiftr_div_pow2 by lia.
  rewrite Z.or_to_plus.
  - assert ((value / 2 ^ 32) mod 2 ^ 32 * 2 ^ 32 + value mod 2 ^ 32
            = value mod 2 ^ 64) as ->.
    { change (2 ^ 64) with (2 ^ 32 * 2 ^ 32). rewrite Z.rem_mul_r by lia. lia. }
    rewrite Zplus_mod_idemp_l, Z.mod_small by lia. lia.
  - rewrite <- Z.shiftl_mul_pow2 by lia.
    rewrite <- (Z.land_ones value 32) by lia. bits.
Qed.

Section ByteAligned.
Context {rt : Runtime}.

Lemma write_bytes_position bs s :
  WS._position (fold_left (fun s b => WS.write b s) bs s) =
  WS._position s + Z.of_nat (length bs).
Proof.
  revert s. induction bs as [|b bs IH]; intros s; cbn [fold_left length]; [lia|].
  rewrite IH, write_position. lia.
Qed.

Lemma write_bytes_load_below bs s j :
  0 <= j < WS._position s ->
  load (WS._buffer (fold_left (fun s b => WS.write b s) bs s)) j =
  load (WS._buffer s) j.
Proof.
  revert s. induction bs as [|b bs IH]; intros s Hj; cbn [fold_left];
    [reflexivity|].
  rewrite IH by (rewrite write_position; lia). now apply write_load_below.
Qed.

Lemma write_bytes_load bs s i :
  0 <= WS._position s -> (i < length bs)%nat ->
  load (WS._buffer (fold_left (fun s b => WS.write b s) bs s))
       (WS._position s + Z.of_nat i) = to_u_char (nth i bs 0).
Proof.
  revert s i. induction bs as [|b bs IH]; intros s i Hpos Hi;
    cbn [fold_left length] in *; [lia|].
  destruct i as [|i].
  - rewrite Z.add_0_r, write_bytes_load_below by (rewrite write_position; lia).
    apply write_load_same.
  - cbn [nth].
    replace (WS._position s + Z.of_nat (S i))
      with (WS._position (WS.write b s) + Z.of_nat i)
      by (rewrite write_position; lia).
    apply IH; [rewrite write_position|]; lia.
Qed.

Context {u5 : Unsigned5} {mb : MoveBits}.

Lemma ws_write_int_position v s :
  WS._position (WS.write_int v s) =
  WS._position s + Z.of_nat (length (varint_encode v)).
Proof. apply write_bytes_position. Qed.

Lemma ws_write_int_load_below v s j :
  0 <= j < WS._position s ->
  load (WS._buffer (WS.write_int v s)) j = load (WS._buffer s) j.
Proof. apply write_bytes_load_below. Qed.

Lemma read_int_write_int_aligned v s m :
  varint_round_trips u5 -> is_juint v -> 0 <= WS._position s ->
  (forall j, WS._position s <= j < WS._position (WS.write_int v s) ->
     load m j = load (WS._buffer (WS.write_int v s)) j) ->
  RS.read_int {| RS._buffer := m; RS._position := WS._position s |} =
  (to_jint v, {| RS._buffer := m; RS._position := WS._position (WS.write_int v s) |}).
Proof.
  intros Hrt Hv Hpos Hm. unfold RS.read_int. cbn [RS._buffer RS._position].
  rewrite (Hrt v m (WS._position s) Hv).
  - now rewrite ws_write_int_position.
  - intros i Hi. rewrite Hm by (rewrite ws_write_int_position; lia).
    now apply write_bytes_load.
Qed.

(** Two words in a row. *)
Lemma read_two_ints a b s m :
  varint_round_trips u5 -> is_juint a -> is_juint b -> 0 <= WS._position s ->
  (forall j, WS._position s <= j < WS._position (WS.write_int b (WS.write_int a s)) ->
     load m j = load (WS._buffer (WS.write_int b (WS.write_int a s))) j) ->
  RS.read_int {| RS._buffer := m; RS._position := WS._position s |} =
    (to_jint a, {| RS._buffer := m; RS._position := WS._position (WS.write_int a s) |}) /\
  RS.read_int {| RS._buffer := m; RS._position := WS._position (WS.write_int a s) |} =
    (to_jint b, {| RS._buffer := m;
                   RS._position := WS._position (WS.write_int b (WS.write_int a s)) |}).
Proof.
  intros Hrt Ha Hb Hpos Hm.
  pose proof (ws_write_int_position a s) as Pa.
  pose proof (ws_write_int_position b (WS.write_int a s)) as Pb.
  split; apply read_int_write_int_aligned; try assumption; try lia.
  - intros j Hj. rewrite Hm by lia. apply ws_write_int_load_below. lia.
  - intros j Hj. apply Hm. lia.
Qed.

(** C7: [write_double] encodes the bit-reversed high half, then the
    bit-reversed low half; given that the variable-length primitive round
    trips and that [reverse_bits] is an involution, [read_double] on the
    written bytes returns the original 64-bit pattern and stops where the
    writer stopped. *)
Theorem double_round_trip (value : Z) (s : WS.t) (m : buffer_t) :
  varint_round_trips u5 -> reverse_bits_involutive mb ->
  is_jlong value -> 0 <= WS._position s ->
  (forall j, WS._position s <= j < WS._position (WS.write_double value s) ->
     load m j = load (WS._buffer (WS.write_double value s)) j) ->
  WS.write_double value s =
    WS.write_int (to_juint (reverse_bits (to_juint (low value))))
      (WS.write_int (to_juint (reverse_bits (to_juint (high value)))) s) /\
  RS.read_double {| RS._buffer := m; RS._position := WS._position s |} =
    (value, {| RS._buffer := m;
               RS._position := WS._position (WS.write_double value s) |}).
Proof.
  intros Hrt Hrev Hv Hpos Hm. split; [reflexivity|].
  unfold WS.write_double in *. cbv zeta in *.
  set (rh := to_juint (reverse_bits (to_juint (high value)))) in *.
  set (rl := to_juint (reverse_bits (to_juint (low value)))) in *.
  destruct (read_two_ints rh rl s m Hrt (to_juint_range _) (to_juint_range _)
              Hpos Hm) as [R1 R2].
  unfold RS.read_double. rewrite R1, R2. f_equal.
  rewrite !to_jint_juint.
  rewrite (to_juint_small rh), (to_juint_small rl) by apply to_juint_range.
  unfold jlong_from. rewrite !to_jint_juint. unfold rh, rl.
  rewrite !Hrev by apply to_juint_range.
  exact (jlong_from_high_low value Hv).
Qed.

(** C8: [write_long] encodes the sign-folded low half, then the
    sign-folded high half; given that the variable-length primitive round
    trips and that [decode_sign] undoes [encode_sign], [read_long] on the
    written bytes returns the original [jlong]. *)
Theorem long_round_trip (value : Z) (s : WS.t) (m : buffer_t) :
  varint_round_trips u5 -> sign_fold_inverse u5 ->
  is_jlong value -> 0 <= WS._position s ->
  (forall j, WS._position s <= j < WS._position (WS.write_long value s) ->
     load m j = load (WS._buffer (WS.write_long value s)) j) ->
  WS.write_long value s =
    WS.write_int (to_juint (encode_sign (high value)))
      (WS.write_int (to_juint (encode_sign (low value))) s) /\
  RS.read_long {| RS._buffer := m; RS._position := WS._position s |} =
    (value, {| RS._buffer := m;
               RS._position := WS._position (WS.write_long value s) |}).
Proof.
  intros Hrt Hsign Hv Hpos Hm. split; [reflexivity|].
  unfold WS.write_long, WS.write_signed_int in *. cbv zeta in *.
  destruct (read_two_ints _ _ s m Hrt (to_juint_range _) (to_juint_range _)
              Hpos Hm) as [R1 R2].
  unfold RS.read_long, RS.read_signed_int. rewrite R1. cbv beta iota.
  rewrite R2. cbv beta iota.
  rewrite !to_jint_juint.
  rewrite (to_juint_small (to_juint (encode_sign (low value)))),
    (to_juint_small (to_juint (encode_sign (high value))))
    by apply to_juint_range.
  rewrite (Hsign (low value)), (Hsign (high value)) by apply to_jint_range.
  f_equal. now apply jlong_from_high_low.
Qed.
End ByteAligned.

Lemma sample_varint_round_trips : varint_round_trips sample_unsigned5.
Proof.
  intros v m p Hv H. cbn [varint_encode varint_decode sample_unsigned5 length] in *.
  pose proof (H 0%nat ltac:(lia)) as H0. pose proof (H 1%nat ltac:(lia)) as H1.
  pose proof (H 2%nat ltac:(lia)) as H2. pose proof (H 3%nat ltac:(lia)) as H3.
  cbn [nth Z.of_nat] in *. rewrite Z.add_0_r in H0.
  change (Z.pos (Pos.of_succ_nat 0)) with 1 in *.
  change (Z.pos (Pos.of_succ_nat 1)) with 2 in *.
  change (Z.pos (Pos.of_succ_nat 2)) with 3 in *.
  change (Z.pos (Pos.of_succ_nat 3)) with 4 in *.
  rewrite H0, H1, H2, H3. f_equal.
  unfold to_u_char. unfold is_juint in Hv.
  rewrite <- (Z.mod_small v (2 ^ 32)) at 5 by assumption.
  bits.
Qed.

Lemma land_1 u : Z.land u 1 = u mod 2.
Proof. change 1 with (Z.ones 1). now rewrite Z.land_ones by lia. Qed.

Lemma sample_sign_fold_inverse : sign_fold_inverse sample_unsigned5.
Proof.
  intros v Hv. cbn [encode_sign decode_sign sample_unsigned5].
  unfold is_jint in Hv.
  assert (Z.shiftr v 31 = if v <? 0 then -1 else 0) as ->.
  { rewrite Z.shiftr_div_pow2 by lia.
    destruct (Z.ltb_spec v 0); Z.to_euclidean_division_equations; lia. }
  rewrite Z.shiftl_mul_pow2 by lia. change (2 ^ 1) with 2.
  destruct (Z.ltb_spec v 0).
  - rewrite Z.lxor_m1_r. unfold Z.lnot. rewrite <- Z.sub_1_r.
    rewrite to_juint_small by (unfold is_juint; lia).
    rewrite land_1, Z.shiftr_div_pow2 by lia. change (2 ^ 1) with 2.
    assert ((- (v * 2) - 1) mod 2 = 1) as ->
      by (Z.to_euclidean_division_equations; lia).
    assert ((- (v * 2) - 1) / 2 = - v - 1) as ->
      by (Z.to_euclidean_division_equations; lia).
    change (- (1)) with (-1). rewrite Z.lxor_m1_r. unfold Z.lnot.
    rewrite to_jint_small by (unfold is_jint; lia). lia.
  - rewrite Z.lxor_0_r.
    rewrite to_juint_small by (unfold is_juint; lia).
    rewrite land_1, Z.shiftr_div_pow2 by lia. change (2 ^ 1) with 2.
    rewrite Z.mod_mul, Z.div_mul by lia. change (- 0) with 0.
    rewrite Z.lxor_0_r. apply to_jint_small. unfold is_jint. lia.
Qed.

Lemma testbit_of_bits l i :
  Z.testbit (of_bits l) (Z.of_nat i) = nth i l false.
Proof.
  revert i. induction l as [|b l IH]; intros i.
  - destruct i; apply Z.bits_0.
  - cbn [of_bits fold_right]. fold (of_bits l). destruct i as [|i].
    + apply Z.testbit_0_r.
    + rewrite Nat2Z.inj_succ, Z.testbit_succ_r by lia. apply IH.
Qed.

Lemma of_bits_bits32 x : of_bits (bits32 x) = to_juint x.
Proof.
  apply Z.bits_inj'. intros n Hn. unfold to_juint.
  rewrite Z.testbit_mod_pow2 by lia.
  rewrite <- (Z2Nat.id n Hn), testbit_of_bits. unfold bits32.
  destruct (Z.ltb_spec (Z.of_nat (Z.to_nat n)) 32) as [H|H].
  - rewrite (nth_indep _ false (Z.testbit x (Z.of_nat 0)))
      by (rewrite length_map, length_seq; lia).
    rewrite (map_nth (fun i => Z.testbit x (Z.of_nat i))), seq_nth by lia.
    reflexivity.
  - apply nth_overflow. rewrite length_map, length_seq. lia.
Qed.

Lemma bits32_of_bits l : length l = 32%nat -> bits32 (of_bits l) = l.
Proof.
  intros H. apply (nth_ext _ _ false false).
  - unfold bits32. now rewrite length_map, length_seq.
  - intros n Hn. unfold bits32 in *. rewrite length_map, length_seq in Hn.
    rewrite (nth_indep _ false (Z.testbit (of_bits l) (Z.of_nat 0)))
      by (rewrite length_map, length_seq; lia).
    rewrite (map_nth (fun i => Z.testbit (of_bits l) (Z.of_nat i))), seq_nth by lia.
    apply testbit_of_bits.
Qed.

Lemma sample_reverse_bits_involutive : reverse_bits_involutive sample_move_bits.
Proof.
  intros x Hx. cbn [reverse_bits sample_move_bits].
  assert (forall y, to_juint (of_bits (rev (bits32 y))) = of_bits (rev (bits32 y))) as E.
  { intros y. rewrite <- of_bits_bits32, bits32_of_bits; [reflexivity|].
    unfold bits32. now rewrite length_rev, length_map, length_seq. }
  rewrite !E, bits32_of_bits, rev_involutive, of_bits_bits32.
  - now apply to_juint_small.
  - unfold bits32. now rewrite length_rev, length_map, length_seq.
Qed.

Lemma sparse_round_trip_witness :
  SR.read_ints 6 (length sample_words)
    {| SR._buffer := SW._buffer sample_flushed;
       SR._position := SW._position sample_stream;
       SR.byte_pos_ := SW.byte_pos_ sample_stream |} =
  Some (map to_jint sample_words,
        {| SR._buffer := SW._buffer sample_flushed;
           SR._position :=
             SW._position (@SW.write_ints sample_runtime sample_words sample_stream);
           SR.byte_pos_ :=
             SW.byte_pos_ (@SW.write_ints sample_runtime sample_words sample_stream) |}) /\
  map to_juint (map to_jint sample_words) = sample_words.
Proof.
  apply (@sparse_round_trip sample_runtime sample_words sample_stream
           (SW._buffer sample_flushed)).
  - unfold sample_words.
    repeat (apply Forall_cons; [unfold is_juint; lia|]). apply Forall_nil.
  - apply create_inv.
  - change (0 <= 0). lia.
  - intros j _. reflexivity.
Defined.

Lemma bit_cursor_invariant_witness :
  cursor_inv (@SW.write_zero sample_runtime sample_stream) /\
  (forall b, cursor_inv (@SW.write_byte_impl sample_runtime b sample_stream)) /\
  (forall val, cursor_inv (@SW.write_int sample_runtime val sample_stream)) /\
  cursor_inv (snd (@SW.position sample_runtime sample_stream)) /\
  (SW.byte_pos_ sample_stream = 0 -> SW.curr_byte_ sample_stream = 0).
Proof.
  apply (@bit_cursor_invariant sample_runtime sample_stream).
  apply create_inv.
Defined.

Lemma zero_run_compact_witness :
  fst (@SW.position sample_runtime
         (@SW.write_ints sample_runtime (repeat 0 8) sample_stream)) =
    SW._position sample_stream + (Z.of_nat 8 + 7) / 8 /\
  bytes_at (SW._buffer (snd (@SW.position sample_runtime
              (@SW.write_ints sample_runtime (repeat 0 8) sample_stream))))
           (SW._position sample_stream) (Z.to_nat ((Z.of_nat 8 + 7) / 8)) =
    repeat 0 (Z.to_nat ((Z.of_nat 8 + 7) / 8)).
Proof.
  apply (@zero_run_compact sample_runtime 8 sample_stream).
  - reflexivity.
  - reflexivity.
  - change (0 <= 0). lia.
Defined.

Lemma grow_doubles_and_preserves_witness :
  WS._size (@WS.grow sample_runtime sample_byte_stream) =
    Z.max (2 * WS._size sample_byte_stream) (2 * @MAX_LENGTH sample_runtime) /\
  2 * WS._size sample_byte_stream <=
    WS._size (@WS.grow sample_runtime sample_byte_stream) /\
  2 * @MAX_LENGTH sample_runtime <=
    WS._size (@WS.grow sample_runtime sample_byte_stream) /\
  WS._position (@WS.grow sample_runtime sample_byte_stream) =
    WS._position sample_byte_stream /\
  (forall j, 0 <= j < WS._position sample_byte_stream ->
     load (WS._buffer (@WS.grow sample_runtime sample_byte_stream)) j =
     load (WS._buffer sample_byte_stream) j).
Proof.
  apply (@grow_doubles_and_preserves sample_runtime sample_byte_stream).
  - change (is_jint (2 * 2)). unfold is_jint. lia.
  - change (is_jint (5 * 2)). unfold is_jint. lia.
Defined.

Lemma write_int_at_most_six_groups_witness :
  @SW.write_int sample_runtime 4294967295 sample_stream =
    @write_groups sample_runtime (SW.groups 4294967295) sample_stream /\
  (1 <= length (SW.groups 4294967295) <= 6)%nat /\
  (exists pre,
     SW.groups 4294967295 = pre ++ [Z.lor 128 (Z.land 4294967295 63)] /\
     (length pre <= 5)%nat /\
     Forall (fun g => 0 <= g < 256 /\ Z.land g 192 = 192) pre /\
     (0 <= Z.lor 128 (Z.land 4294967295 63) < 256 /\
      Z.land (Z.lor 128 (Z.land 4294967295 63)) 192 = 128) /\
     (forall k, (1 <= k)%nat -> 4294967295 < 2 ^ (6 * Z.of_nat k) ->
                (length pre <= k - 1)%nat)) /\
  SW._position (@SW.write_int sample_runtime 4294967295 sample_stream) =
    SW._position sample_stream + Z.of_nat (length (SW.groups 4294967295)) /\
  SW.byte_pos_ (@SW.write_int sample_runtime 4294967295 sample_stream) =
    SW.byte_pos_ sample_stream /\
  SR.read_int (length (SW.groups 4294967295))
    {| SR._buffer := SW._buffer (snd (@SW.position sample_runtime
                       (@SW.write_int sample_runtime 4294967295 sample_stream)));
       SR._position := SW._position sample_stream;
       SR.byte_pos_ := SW.byte_pos_ sample_stream |} =
  Some (to_jint 4294967295,
        {| SR._buffer := SW._buffer (snd (@SW.position sample_runtime
                           (@SW.write_int sample_runtime 4294967295 sample_stream)));
           SR._position :=
             SW._position sample_stream + Z.of_nat (length (SW.groups 4294967295));
           SR.byte_pos_ := SW.byte_pos_ sample_stream |}).
Proof.
  apply (@write_int_at_most_six_groups sample_runtime 4294967295 sample_stream
           (SW._buffer (snd (@SW.position sample_runtime
              (@SW.write_int sample_runtime 4294967295 sample_stream))))).
  - unfold is_juint; lia.
  - lia.
  - apply create_inv.
  - change (0 <= 0). lia.
  - intros j _. reflexivity.
Defined.

Lemma read_byte_impl_aligned_witness :
  SR.read_byte_impl sample_reader =
    (load (SR._buffer sample_reader) (SR._position sample_reader),
     {| SR._buffer := SR._buffer sample_reader;
        SR._position := SR._position sample_reader + 1;
        SR.byte_pos_ := 0 |}) /\
  (forall m' : buffer_t,
     load m' (SR._position sample_reader) =
       load (SR._buffer sample_reader) (SR._position sample_reader) ->
     fst (SR.read_byte_impl {| SR._buffer := m';
                               SR._position := SR._position sample_reader;
                               SR.byte_pos_ := 0 |}) =
       fst (SR.read_byte_impl sample_reader) /\
     SR._position (snd (SR.read_byte_impl
        {| SR._buffer := m'; SR._position := SR._position sample_reader;
           SR.byte_pos_ := 0 |})) =
       SR._position (snd (SR.read_byte_impl sample_reader)) /\
     SR.byte_pos_ (snd (SR.read_byte_impl
        {| SR._buffer := m'; SR._position := SR._position sample_reader;
           SR.byte_pos_ := 0 |})) =
       SR.byte_pos_ (snd (SR.read_byte_impl sample_reader))).
Proof.
  apply (read_byte_impl_aligned sample_reader).
  reflexivity.
Defined.

Lemma double_round_trip_witness :
  @WS.write_double sample_runtime sample_unsigned5 sample_move_bits
     4607182418800017408 sample_byte_stream =
    @WS.write_int sample_runtime sample_unsigned5
      (to_juint (@reverse_bits sample_move_bits (to_juint (low 4607182418800017408))))
      (@WS.write_int sample_runtime sample_unsigned5
         (to_juint (@reverse_bits sample_move_bits (to_juint (high 4607182418800017408))))
         sample_byte_stream) /\
  @RS.read_double sample_unsigned5 sample_move_bits
    {| RS._buffer := WS._buffer
         (@WS.write_double sample_runtime sample_unsigned5 sample_move_bits
            4607182418800017408 sample_byte_stream);
       RS._position := WS._position sample_byte_stream |} =
  (4607182418800017408,
   {| RS._buffer := WS._buffer
         (@WS.write_double sample_runtime sample_unsigned5 sample_move_bits
            4607182418800017408 sample_byte_stream);
      RS._position := WS._position
         (@WS.write_double sample_runtime sample_unsigned5 sample_move_bits
            4607182418800017408 sample_byte_stream) |}).
Proof.
  apply (@double_round_trip sample_runtime sample_unsigned5 sample_move_bits
           4607182418800017408 sample_byte_stream).
  - exact sample_varint_round_trips.
  - exact sample_reverse_bits_involutive.
  - unfold is_jlong; lia.
  - change (0 <= 0). lia.
  - intros j _. reflexivity.
Defined.

Lemma long_round_trip_witness :
  @WS.write_long sample_runtime sample_unsigned5 (-2) sample_byte_stream =
    @WS.write_int sample_runtime sample_unsigned5
      (to_juint (@encode_sign sample_unsigned5 (high (-2))))
      (@WS.write_int sample_runtime sample_unsigned5
         (to_juint (@encode_sign sample_unsigned5 (low (-2)))) sample_byte_stream) /\
  @RS.read_long sample_unsigned5
    {| RS._buffer := WS._buffer
         (@WS.write_long sample_runtime sample_unsigned5 (-2) sample_byte_stream);
       RS._position := WS._position sample_byte_stream |} =
  (-2,
   {| RS._buffer := WS._buffer
         (@WS.write_long sample_runtime sample_unsigned5 (-2) sample_byte_stream);
      RS._position := WS._position
         (@WS.write_long sample_runtime sample_unsigned5 (-2) sample_byte_stream) |}).
Proof.
  apply (@long_round_trip sample_runtime sample_unsigned5 (-2) sample_byte_stream).
  - exact sample_varint_round_trips.
  - exact sample_sign_fold_inverse.
  - unfold is_jlong; lia.
  - change (0 <= 0). lia.
  - intros j _. reflexivity.
Defined.

(** * Further properties *)

Section SparseSize.
Context {rt : Runtime}.

Lemma write_int_bit_cursor val s :
  cursor_inv s ->
  bit_cursor (SW.write_int val s) = bit_cursor s + encoded_bits val.
Proof.
  intros Hinv. unfold bit_cursor, encoded_bits.
  destruct (Z.eqb_spec val 0) as [->|Hnz].
  - change (SW.write_int 0 s) with (SW.write_zero s).
    destruct (write_zero_cursor s Hinv) as (_ & _ & -> & ->).
    destruct Hinv as [Hp _]. destruct (Z.eqb_spec (SW.byte_pos_ s) 7); lia.
  - rewrite write_int_groups, write_groups_position, write_groups_byte_pos
      by assumption. lia.
Qed.

Lemma write_ints_bit_cursor vals s :
  cursor_inv s ->
  bit_cursor (SW.write_ints vals s) = bit_cursor s + total_bits vals.
Proof.
  revert s. induction vals as [|v vals IH]; intros s Hinv.
  - cbn. lia.
  - change (SW.write_ints (v :: vals) s)
      with (SW.write_ints vals (SW.write_int v s)).
    rewrite IH, write_int_bit_cursor by (try apply write_int_inv; assumption).
    cbn [total_bits fold_right]. fold (total_bits vals). lia.
Qed.

Lemma position_ceil s :
  cursor_inv s -> fst (SW.position s) = (bit_cursor s + 7) / 8.
Proof.
  intros [Hp _]. unfold bit_cursor.
  destruct (Z.eq_dec (SW.byte_pos_ s) 0) as [E|E].
  - rewrite position_aligned by assumption. cbn [fst]. rewrite E.
    Z.to_euclidean_division_equations; lia.
  - rewrite position_flush by assumption. cbn [fst].
    fold (SW._position s).
    Z.to_euclidean_division_equations; lia.
Qed.

Lemma groups_loop_count i val k :
  is_juint val -> (1 <= k)%nat ->
  2 ^ (6 * (Z.of_nat k - 1)) <= val < 2 ^ (6 * Z.of_nat k) ->
  length (SW.groups_loop i val) = Nat.min i (k - 1).
Proof.
  intros Hv Hk [Hlo Hhi]. induction i as [|i IH]; [reflexivity|].
  cbn [SW.groups_loop]. rewrite length_app, IH.
  rewrite shiftr_juint by (assumption || lia).
  rewrite Z.shiftr_div_pow2 by lia.
  destruct (Nat.lt_ge_cases (S i) k) as [Hik|Hik].
  - assert (val / 2 ^ (6 * Z.of_nat (S i)) <> 0) as Hnz.
    { assert (0 < 2 ^ (6 * Z.of_nat (S i))) by (apply Z.pow_pos_nonneg; lia).
      assert (2 ^ (6 * Z.of_nat (S i)) <= 2 ^ (6 * (Z.of_nat k - 1)))
        by (apply Z.pow_le_mono_r; lia).
      intros E. apply Z.div_small_iff in E; lia. }
    destruct (Z.eqb_spec (val / 2 ^ (6 * Z.of_nat (S i))) 0); [contradiction|].
    cbn [length]. lia.
  - assert (val / 2 ^ (6 * Z.of_nat (S i)) = 0) as ->.
    { apply Z.div_small. split; [apply Hv|].
      apply Z.lt_le_trans with (2 ^ (6 * Z.of_nat k)); [assumption|].
      apply Z.pow_le_mono_r; lia. }
    cbn [Z.eqb length]. lia.
Qed.

Lemma groups_count val k :
  is_juint val -> (1 <= k <= 6)%nat ->
  2 ^ (6 * (Z.of_nat k - 1)) <= val < 2 ^ (6 * Z.of_nat k) ->
  length (SW.groups val) = k.
Proof.
  intros Hv Hk Hr. unfold SW.groups.
  rewrite length_app, (groups_loop_count 5 val k) by (assumption || lia).
  cbn [length]. lia.
Qed.

(** X1: a non-zero word [val] with [64^(k-1) <= val < 64^k] is written by
    [write_int] as exactly [k] framed units: the position advances by [k]
    bytes and the bit offset is unchanged. *)
Theorem write_int_size (val : Z) (k : nat) (s : SW.t) :
  is_juint val -> cursor_inv s -> (1 <= k <= 6)%nat ->
  2 ^ (6 * (Z.of_nat k - 1)) <= val < 2 ^ (6 * Z.of_nat k) ->
  SW._position (SW.write_int val s) = SW._position s + Z.of_nat k /\
  SW.byte_pos_ (SW.write_int val s) = SW.byte_pos_ s.
Proof.
  intros Hv Hinv Hk Hr.
  assert (val <> 0) as Hnz.
  { assert (0 < 2 ^ (6 * (Z.of_nat k - 1))) by (apply Z.pow_pos_nonneg; lia). lia. }
  rewrite write_int_groups, write_groups_position, write_groups_byte_pos
    by assumption.
  rewrite (groups_count val k) by assumption.
  split; reflexivity.
Qed.

(** X2: after any sequence of [write_int] calls, [position] returns the
    number of bits written so far ([bit_cursor] at the start, one bit per
    zero word, eight bits per group of a non-zero word), rounded up to
    whole bytes. *)
Theorem write_ints_size (vals : list Z) (s : SW.t) :
  cursor_inv s ->
  fst (SW.position (SW.write_ints vals s)) =
  (bit_cursor s + total_bits vals + 7) / 8.
Proof.
  intros Hinv. rewrite position_ceil by now apply write_ints_inv.
  now rewrite write_ints_bit_cursor.
Qed.

(** X3: [position] is idempotent: a second call returns the same position
    and leaves the stream as the first call left it, byte-aligned. *)
Theorem position_idempotent (s : SW.t) :
  SW.position (snd (SW.position s)) = (fst (SW.position s), snd (SW.position s)) /\
  SW.byte_pos_ (snd (SW.position s)) = 0 /\
  SW.curr_byte_ (snd (SW.position s)) = (if SW.byte_pos_ s =? 0 then SW.curr_byte_ s else 0).
Proof.
  destruct (position_result s) as [E1 E2].
  split; [|split; [exact E2|]].
  - rewrite position_aligned by exact E2. now rewrite E1.
  - destruct (Z.eqb_spec (SW.byte_pos_ s) 0) as [E|E].
    + now rewrite position_aligned.
    + now rewrite position_flush.
Qed.
End SparseSize.

Section SparseFrame.
Context {rt : Runtime}.

Lemma write_byte_impl_load_below b s j :
  0 <= j < SW._position s ->
  load (SW._buffer (SW.write_byte_impl b s)) j = load (SW._buffer s) j.
Proof. intros Hj. unfold SW.write_byte_impl. sw_simpl. now apply write_load_below. Qed.

Lemma write_groups_load_below gs s j :
  0 <= j < SW._position s ->
  load (SW._buffer (write_groups gs s)) j = load (SW._buffer s) j.
Proof.
  revert s. induction gs as [|g gs IH]; intros s Hj; [reflexivity|].
  change (write_groups (g :: gs) s) with (write_groups gs (SW.write_byte_impl g s)).
  rewrite IH by (rewrite write_byte_impl_position; lia).
  now apply write_byte_impl_load_below.
Qed.

Lemma write_int_load_below val s j :
  0 <= j < SW._position s ->
  load (SW._buffer (SW.write_int val s)) j = load (SW._buffer s) j.
Proof.
  intros Hj. destruct (Z.eq_dec val 0) as [->|E].
  - now apply write_zero_load_below.
  - rewrite write_int_groups by assumption. now apply write_groups_load_below.
Qed.

Lemma write_ints_load_below vals s j :
  cursor_inv s -> 0 <= j < SW._position s ->
  load (SW._buffer (SW.write_ints vals s)) j = load (SW._buffer s) j.
Proof.
  revert s. induction vals as [|v vals IH]; intros s Hinv Hj; [reflexivity|].
  change (SW.write_ints (v :: vals) s)
    with (SW.write_ints vals (SW.write_int v s)).
  pose proof (write_int_position_le v s Hinv).
  rewrite IH by (try apply write_int_inv; assumption || lia).
  now apply write_int_load_below.
Qed.

Lemma position_load_below s j :
  0 <= j < SW._position s ->
  load (SW._buffer (snd (SW.position s))) j = load (SW._buffer s) j.
Proof.
  intros Hj. destruct (Z.eq_dec (SW.byte_pos_ s) 0) as [E|E].
  - now rewrite position_aligned.
  - rewrite position_flush by assumption. sw_simpl. now apply write_load_below.
Qed.

(** X4: [write_int] and the flush of [position] never change a byte below
    the position the stream had before them, also when the buffer grows. *)
Theorem sparse_writes_keep_earlier_bytes (vals : list Z) (s : SW.t) (j : Z) :
  cursor_inv s -> 0 <= j < SW._position s ->
  load (SW._buffer (SW.write_ints vals s)) j = load (SW._buffer s) j /\
  load (SW._buffer (snd (SW.position (SW.write_ints vals s)))) j =
    load (SW._buffer s) j.
Proof.
  intros Hinv Hj. split; [now apply write_ints_load_below|].
  rewrite position_load_below.
  - now apply write_ints_load_below.
  - pose proof (write_ints_bit_cursor vals s Hinv) as B.
    assert (0 <= total_bits vals) as T.
    { clear. induction vals as [|v vals IH]; cbn [total_bits fold_right]; [lia|].
      fold (total_bits vals). unfold encoded_bits. destruct (v =? 0); lia. }
    pose proof (write_ints_inv vals s Hinv) as [Hp' _].
    destruct Hinv as [Hp _]. unfold bit_cursor in B. lia.
Qed.

(** *** A byte-aligned cursor *)

Lemma write_byte_impl_aligned b s :
  SW.byte_pos_ s = 0 -> SW.curr_byte_ s = 0 ->
  SW.byte_pos_ (SW.write_byte_impl b s) = 0 /\
  SW.curr_byte_ (SW.write_byte_impl b s) = 0 /\
  load (SW._buffer (SW.write_byte_impl b s)) (SW._position s) = to_u_char b.
Proof.
  intros Hp Hc. unfold SW.write_byte_impl. sw_simpl. rewrite Hp, Hc.
  split; [reflexivity|]. split.
  - change (8 - 0) with 8. change (Z.shiftr 255 8) with 0.
    now rewrite Z.land_0_l.
  - rewrite write_load_same, Z.shiftl_0_l, Z.shiftr_0_r, Z.lor_0_l.
    apply to_u_char_idem.
Qed.

Lemma write_groups_aligned gs :
  forall s,
  SW.byte_pos_ s = 0 -> SW.curr_byte_ s = 0 -> 0 <= SW._position s ->
  SW.byte_pos_ (write_groups gs s) = 0 /\
  SW.curr_byte_ (write_groups gs s) = 0 /\
  bytes_at (SW._buffer (write_groups gs s)) (SW._position s) (length gs) =
    map to_u_char gs.
Proof.
  induction gs as [|g gs IH]; intros s Hp Hc Hpos;
    [repeat split; assumption|].
  change (write_groups (g :: gs) s) with (write_groups gs (SW.write_byte_impl g s)).
  destruct (write_byte_impl_aligned g s Hp Hc) as (Hp' & Hc' & Hl).
  destruct (IH (SW.write_byte_impl g s) Hp' Hc') as (Hp'' & Hc'' & Hb).
  { rewrite write_byte_impl_position. lia. }
  split; [exact Hp''|]. split; [exact Hc''|].
  unfold bytes_at in *. cbn [length seq map]. f_equal.
  - rewrite Z.add_0_r, write_groups_load_below
      by (rewrite write_byte_impl_position; lia).
    exact Hl.
  - rewrite <- Hb, <- seq_shift, map_map. apply map_ext. intros k.
    rewrite write_byte_impl_position. f_equal. lia.
Qed.

(** X5: at a byte boundary with an empty accumulator, [write_int] of a
    non-zero word stores exactly its framed groups, one per byte, and stays
    byte-aligned, so that [position] has nothing to flush. *)
Theorem write_int_aligned_bytes (val : Z) (s : SW.t) :
  is_juint val -> val <> 0 ->
  SW.byte_pos_ s = 0 -> SW.curr_byte_ s = 0 -> 0 <= SW._position s ->
  bytes_at (SW._buffer (SW.write_int val s)) (SW._position s)
           (length (SW.groups val)) = SW.groups val /\
  SW.byte_pos_ (SW.write_int val s) = 0 /\
  SW.curr_byte_ (SW.write_int val s) = 0 /\
  SW.position (SW.write_int val s) =
    (SW._position s + Z.of_nat (length (SW.groups val)), SW.write_int val s).
Proof.
  intros Hv Hnz Hp Hc Hpos. rewrite write_int_groups by assumption.
  destruct (write_groups_aligned (SW.groups val) s Hp Hc Hpos) as (Hp' & Hc' & Hb).
  rewrite Hb, position_aligned, write_groups_position by assumption.
  split; [|split; [assumption|split; [assumption|reflexivity]]].
  transitivity (map (fun g : Z => g) (SW.groups val)); [|apply map_id].
  apply map_ext_in. intros g Hg. unfold SW.groups in Hg. apply in_app_iff in Hg.
  destruct Hg as [Hg|[<-|[]]].
  - apply groups_loop_markers in Hg. destruct Hg as (E & _). exact E.
  - destruct (final_group _ (land_63_range val)) as (E & _). exact E.
Qed.
End SparseFrame.

Section Capacity.
Context {rt : Runtime}.

Lemma write_buffer_inv b s :
  0 < MAX_LENGTH < 2 ^ 30 -> buffer_inv s -> WS._position s < 2 ^ 30 ->
  buffer_inv (WS.write b s) /\
  WS._position s < WS._size (WS.write b s) /\
  WS._size s <= WS._size (WS.write b s).
Proof.
  unfold buffer_inv, WS.write, WS.store, WS.full. intros HM [H0 H1] Hp.
  destruct (Z.leb_spec (WS._size s) (WS._position s)); cbn [WS._position WS._size].
  - rewrite grow_size, grow_position by (unfold is_jint; lia). lia.
  - lia.
Qed.

Lemma write_byte_impl_buffer_inv g s :
  0 < MAX_LENGTH < 2 ^ 30 -> buffer_inv (SW.base s) -> SW._position s < 2 ^ 30 ->
  buffer_inv (SW.base (SW.write_byte_impl g s)) /\
  SW._size s <= SW._size (SW.write_byte_impl g s).
Proof.
  intros HM H Hp. unfold SW.write_byte_impl. sw_simpl.
  destruct (write_buffer_inv
    (Z.lor (Z.shiftl (SW.curr_byte_ s) (8 - SW.byte_pos_ s))
           (Z.shiftr (to_u_char g) (SW.byte_pos_ s))) (SW.base s) HM H Hp)
    as (A & _ & B).
  split; [exact A|exact B].
Qed.

Lemma write_groups_buffer_inv gs s :
  0 < MAX_LENGTH < 2 ^ 30 -> buffer_inv (SW.base s) ->
  SW._position s + Z.of_nat (length gs) <= 2 ^ 30 ->
  buffer_inv (SW.base (write_groups gs s)) /\
  SW._size s <= SW._size (write_groups gs s).
Proof.
  intros HM. revert s. induction gs as [|g gs IH]; intros s H Hp.
  - split; [assumption|apply Z.le_refl].
  - change (write_groups (g :: gs) s)
      with (write_groups gs (SW.write_byte_impl g s)).
    cbn [length] in Hp.
    destruct (write_byte_impl_buffer_inv g s HM H ltac:(lia)) as [A B].
    destruct (IH _ A) as [C D]; [rewrite write_byte_impl_position; lia|].
    split; [exact C|lia].
Qed.

Lemma write_zero_buffer_inv s :
  0 < MAX_LENGTH < 2 ^ 30 -> buffer_inv (SW.base s) -> SW._position s < 2 ^ 30 ->
  buffer_inv (SW.base (SW.write_zero s)) /\
  SW._size s <= SW._size (SW.write_zero s) /\
  SW._position (SW.write_zero s) <= SW._position s + 1.
Proof.
  intros HM H Hp. unfold SW.write_zero. sw_simpl.
  destruct (SW.byte_pos_ s + 1 =? 8); cbn [SW.base].
  - destruct (write_buffer_inv (to_u_char (Z.shiftl (SW.curr_byte_ s) 1))
                (SW.base s) HM H Hp) as (A & _ & B).
    rewrite write_position. split; [exact A|]. split; [exact B|lia].
  - split; [assumption|]. split; lia.
Qed.

Lemma write_int_buffer_inv val s :
  0 < MAX_LENGTH < 2 ^ 30 -> buffer_inv (SW.base s) ->
  SW._position s + 6 <= 2 ^ 30 ->
  buffer_inv (SW.base (SW.write_int val s)) /\
  SW._size s <= SW._size (SW.write_int val s) /\
  SW._position (SW.write_int val s) <= SW._position s + 6.
Proof.
  intros HM H Hp. destruct (Z.eq_dec val 0) as [->|E].
  - destruct (write_zero_buffer_inv s HM H ltac:(lia)) as (A & B & C).
    split; [exact A|]. split; [exact B|]. change (SW.write_int 0 s) with (SW.write_zero s).
    lia.
  - pose proof (groups_length val) as L.
    rewrite write_int_groups by assumption.
    destruct (write_groups_buffer_inv (SW.groups val) s HM H ltac:(lia)) as [A B].
    split; [exact A|]. split; [exact B|]. rewrite write_groups_position. lia.
Qed.

Lemma position_buffer_inv s :
  0 < MAX_LENGTH < 2 ^ 30 -> buffer_inv (SW.base s) -> SW._position s < 2 ^ 30 ->
  buffer_inv (SW.base (snd (SW.position s))) /\
  SW._size s <= SW._size (snd (SW.position s)).
Proof.
  intros HM H Hp. unfold SW.position. sw_simpl.
  destruct (SW.byte_pos_ s =? 0); cbn [snd SW.base].
  - split; [assumption|apply Z.le_refl].
  - destruct (write_buffer_inv (Z.shiftl (SW.curr_byte_ s) (8 - SW.byte_pos_ s))
                (SW.base s) HM H Hp) as (A & _ & B).
    split; [exact A|exact B].
Qed.

Lemma write_ints_buffer_inv vals :
  forall s,
  0 < MAX_LENGTH < 2 ^ 30 -> buffer_inv (SW.base s) ->
  SW._position s + 6 * Z.of_nat (length vals) <= 2 ^ 30 ->
  buffer_inv (SW.base (SW.write_ints vals s)) /\
  SW._size s <= SW._size (SW.write_ints vals s) /\
  SW._position (SW.write_ints vals s) <=
    SW._position s + 6 * Z.of_nat (length vals).
Proof.
  induction vals as [|v vals IH]; intros s HM H Hp.
  - split; [assumption|]. split; [apply Z.le_refl|].
    change (SW.write_ints [] s) with s. cbn [length]. lia.
  - change (SW.write_ints (v :: vals) s)
      with (SW.write_ints vals (SW.write_int v s)).
    cbn [length] in *.
    destruct (write_int_buffer_inv v s HM H ltac:(lia)) as (A & B & C).
    destruct (IH _ HM A ltac:(lia)) as (A' & B' & C').
    split; [exact A'|]. split; lia.
Qed.

(** X6: while the position stays below [2^30] (so that no doubling
    overflows an [int]), the bit-packed writes keep the logical position
    within the capacity ([0 <= _position <= _size]) and never shrink the
    capacity. *)
Theorem sparse_writes_within_capacity (vals : list Z) (s : SW.t) :
  0 < MAX_LENGTH < 2 ^ 30 -> buffer_inv (SW.base s) ->
  SW._position s + 6 * Z.of_nat (length vals) < 2 ^ 30 ->
  buffer_inv (SW.base (SW.write_ints vals s)) /\
  SW._size s <= SW._size (SW.write_ints vals s) /\
  buffer_inv (SW.base (snd (SW.position (SW.write_ints vals s)))) /\
  SW._size s <= SW._size (snd (SW.position (SW.write_ints vals s))).
Proof.
  intros HM H Hp.
  destruct (write_ints_buffer_inv vals s HM H ltac:(lia)) as (A & B & C).
  destruct (position_buffer_inv _ HM A ltac:(lia)) as [D E].
  split; [exact A|]. split; [exact B|]. split; [exact D|lia].
Qed.

(** X7: on a stream whose position lies within its capacity and whose
    capacity is below [2^30] (so that doubling it does not overflow an
    [int]), [grow] leaves room for at least [MAX_LENGTH] more bytes, and for
    at least as many bytes as the old capacity; the grown stream is not
    full. *)
Theorem grow_makes_room (s : WS.t) :
  0 < MAX_LENGTH < 2 ^ 30 -> buffer_inv s -> WS._size s < 2 ^ 30 ->
  MAX_LENGTH <= WS._size (WS.grow s) - WS._position (WS.grow s) /\
  WS._size s <= WS._size (WS.grow s) - WS._position (WS.grow s) /\
  buffer_inv (WS.grow s) /\
  WS.full (WS.grow s) = false.
Proof.
  unfold buffer_inv, WS.full. intros HM [H0 H1] Hs.
  rewrite grow_size, grow_position by (unfold is_jint; lia).
  split; [lia|]. split; [lia|]. split; [lia|]. apply Z.leb_gt. lia.
Qed.
End Capacity.

(** ** The reader on its own *)

Lemma read_byte_impl_all_ones m p bp :
  0 <= bp < 8 -> load m p = 255 -> load m (p + 1) = 255 ->
  SR.read_byte_impl {| SR._buffer := m; SR._position := p; SR.byte_pos_ := bp |} =
  (255, {| SR._buffer := m; SR._position := p + 1; SR.byte_pos_ := bp |}).
Proof.
  intros Hbp H0 H1. unfold SR.read_byte_impl.
  cbn [SR._buffer SR._position SR.byte_pos_]. rewrite H0, H1. f_equal.
  assert (bp = 0 \/ bp = 1 \/ bp = 2 \/ bp = 3 \/ bp = 4 \/ bp = 5 \/ bp = 6 \/ bp = 7)
    as E by lia.
  repeat (destruct E as [->|E]; [reflexivity|]). subst bp. reflexivity.
Qed.

Lemma read_int_loop_all_ones m fuel :
  forall p bp result,
  0 <= bp < 8 -> (forall i, p <= i -> load m i = 255) ->
  SR.read_int_loop fuel result
    {| SR._buffer := m; SR._position := p; SR.byte_pos_ := bp |} = None.
Proof.
  induction fuel as [|fuel IH]; intros p bp result Hbp H; [reflexivity|].
  cbn [SR.read_int_loop].
  rewrite read_byte_impl_all_ones by (try apply H; lia).
  change (Z.land 255 192 =? 128) with false. cbv iota.
  apply IH; [assumption|]. intros i Hi. apply H. lia.
Qed.

(** X8: [read_int] has no bound of its own: over cells that all hold [0xFF]
    (no group with marker [10]) it does not return, whatever the number of
    iterations allowed. *)
Theorem read_int_without_final_group (m : buffer_t) (p bp : Z) (fuel : nat) :
  0 <= bp < 8 -> (forall i, p <= i -> load m i = 255) ->
  SR.read_int fuel {| SR._buffer := m; SR._position := p; SR.byte_pos_ := bp |} = None.
Proof.
  intros Hbp H. unfold SR.read_int, SR.read_zero.
  cbn [SR._buffer SR._position SR.byte_pos_].
  rewrite land_bit_test by lia. rewrite H by lia.
  assert (Z.testbit 255 (7 - bp) = true) as ->.
  { change 255 with (Z.ones 8). apply Z.ones_spec_low. lia. }
  cbn [negb]. now apply read_int_loop_all_ones.
Qed.

(** X9: when the bit under the cursor is clear, [read_int] returns 0 without
    entering its loop and consumes exactly that bit. *)
Theorem read_int_zero_bit (s : SR.t) (fuel : nat) :
  0 <= SR.byte_pos_ s < 8 ->
  Z.testbit (load (SR._buffer s) (SR._position s)) (7 - SR.byte_pos_ s) = false ->
  exists s',
    SR.read_int fuel s = Some (0, s') /\
    SR._buffer s' = SR._buffer s /\
    read_bit_cursor s' = read_bit_cursor s + 1 /\
    0 <= SR.byte_pos_ s' < 8.
Proof.
  intros Hbp Hbit. unfold SR.read_int, SR.read_zero.
  rewrite land_bit_test, Hbit by lia. cbn [negb SR.byte_pos_].
  unfold read_bit_cursor.
  destruct (Z.eqb_spec (SR.byte_pos_ s + 1) 8) as [E|E]; eexists;
    (split; [reflexivity|]); cbn [SR._buffer SR._position SR.byte_pos_];
    (split; [reflexivity|]); lia.
Qed.

(** X10: the steps of the reader: [read_byte_impl] returns a [uint8_t],
    consumes eight bits and keeps the bit offset; [read_zero] answers by the
    bit under the cursor, consumes it only when it is clear, and keeps the
    bit offset in [0, 8); neither changes the buffer. *)
Theorem reader_cursor_steps (s : SR.t) :
  0 <= SR.byte_pos_ s < 8 ->
  (0 <= fst (SR.read_byte_impl s) < 256 /\
   SR._buffer (snd (SR.read_byte_impl s)) = SR._buffer s /\
   read_bit_cursor (snd (SR.read_byte_impl s)) = read_bit_cursor s + 8 /\
   SR.byte_pos_ (snd (SR.read_byte_impl s)) = SR.byte_pos_ s) /\
  (SR._buffer (snd (SR.read_zero s)) = SR._buffer s /\
   read_bit_cursor (snd (SR.read_zero s)) =
     read_bit_cursor s + (if fst (SR.read_zero s) then 1 else 0) /\
   0 <= SR.byte_pos_ (snd (SR.read_zero s)) < 8 /\
   fst (SR.read_zero s) =
     negb (Z.testbit (load (SR._buffer s) (SR._position s)) (7 - SR.byte_pos_ s))).
Proof.
  intros Hbp. split.
  - unfold SR.read_byte_impl, read_bit_cursor.
    cbn [fst snd SR._buffer SR._position SR.byte_pos_].
    split; [|split; [reflexivity|split; [lia|reflexivity]]].
    pose proof (to_u_char_range (Z.shiftl (load (SR._buffer s) (SR._position s))
                                          (SR.byte_pos_ s))) as H1.
    pose proof (to_u_char_range (Z.shiftr (load (SR._buffer s) (SR._position s + 1))
                                          (8 - SR.byte_pos_ s))) as H2.
    change 256 with (2 ^ 8) in *. split.
    + apply Z.lor_nonneg. lia.
    + destruct (Z.eq_dec (Z.lor (to_u_char (Z.shiftl (load (SR._buffer s) (SR._position s))
                                          (SR.byte_pos_ s)))
                  (to_u_char (Z.shiftr (load (SR._buffer s) (SR._position s + 1))
                                          (8 - SR.byte_pos_ s)))) 0) as [->|Hnz]; [lia|].
      apply Z.log2_lt_pow2; [pose proof (Z.lor_nonneg
        (to_u_char (Z.shiftl (load (SR._buffer s) (SR._position s)) (SR.byte_pos_ s)))
        (to_u_char (Z.shiftr (load (SR._buffer s) (SR._position s + 1))
                    (8 - SR.byte_pos_ s)))); lia|].
      rewrite Z.log2_lor by lia.
      apply Z.max_lub_lt.
      * destruct (Z.eq_dec (to_u_char (Z.shiftl (load (SR._buffer s) (SR._position s))
                                          (SR.byte_pos_ s))) 0) as [->|?];
          [cbn; lia|apply Z.log2_lt_pow2; lia].
      * destruct (Z.eq_dec (to_u_char (Z.shiftr (load (SR._buffer s) (SR._position s + 1))
                                          (8 - SR.byte_pos_ s))) 0) as [->|?];
          [cbn; lia|apply Z.log2_lt_pow2; lia].
  - unfold SR.read_zero, read_bit_cursor. rewrite land_bit_test by lia.
    destruct (Z.testbit (load (SR._buffer s) (SR._position s)) (7 - SR.byte_pos_ s));
      cbn [negb fst snd SR._buffer SR._position SR.byte_pos_].
    + repeat split; lia.
    + destruct (Z.eqb_spec (SR.byte_pos_ s + 1) 8);
        cbn [fst snd SR._buffer SR._position SR.byte_pos_]; repeat split; lia.
Qed.

Section ByteAlignedMore.
Context {rt : Runtime} {u5 : Unsigned5} {mb : MoveBits}.

(** X11: [read_float] after [write_float] returns the same 32-bit pattern,
    given that the variable-length primitive round trips and that
    [reverse_bits] is an involution. *)
Theorem float_round_trip (value : Z) (s : WS.t) (m : buffer_t) :
  varint_round_trips u5 -> reverse_bits_involutive mb ->
  is_jint value -> 0 <= WS._position s ->
  (forall j, WS._position s <= j < WS._position (WS.write_float value s) ->
     load m j = load (WS._buffer (WS.write_float value s)) j) ->
  RS.read_float {| RS._buffer := m; RS._position := WS._position s |} =
    (value, {| RS._buffer := m;
               RS._position := WS._position (WS.write_float value s) |}).
Proof.
  intros Hrt Hrev Hv Hpos Hm. unfold WS.write_float in *. cbv zeta in *.
  unfold RS.read_float.
  rewrite (read_int_write_int_aligned _ s m Hrt (to_juint_range _) Hpos Hm).
  cbv beta iota zeta. f_equal.
  rewrite to_jint_juint.
  rewrite (to_juint_small (to_juint (reverse_bits (to_juint value))))
    by apply to_juint_range.
  rewrite <- to_juint_jint, Hrev by apply to_juint_range.
  rewrite to_juint_jint. now apply to_jint_small.
Qed.

(** X12: [read_signed_int] after [write_signed_int] returns the same [jint],
    given that the variable-length primitive round trips and that
    [decode_sign] undoes [encode_sign]. *)
Theorem signed_int_round_trip (value : Z) (s : WS.t) (m : buffer_t) :
  varint_round_trips u5 -> sign_fold_inverse u5 ->
  is_jint value -> 0 <= WS._position s ->
  (forall j, WS._position s <= j < WS._position (WS.write_signed_int value s) ->
     load m j = load (WS._buffer (WS.write_signed_int value s)) j) ->
  RS.read_signed_int {| RS._buffer := m; RS._position := WS._position s |} =
    (value, {| RS._buffer := m;
               RS._position := WS._position (WS.write_signed_int value s) |}).
Proof.
  intros Hrt Hsign Hv Hpos Hm. unfold WS.write_signed_int in *.
  unfold RS.read_signed_int.
  rewrite (read_int_write_int_aligned _ s m Hrt (to_juint_range _) Hpos Hm).
  cbv beta iota. f_equal.
  rewrite to_jint_juint.
  rewrite (to_juint_small (to_juint (encode_sign value))) by apply to_juint_range.
  now apply Hsign.
Qed.

End ByteAlignedMore.

Ltac prune_ltb :=
  repeat match goal with
    | |- context [Z.testbit ?a ?i] => rewrite (Z.testbit_neg_r a i) by lia
    | |- context [?a <? ?b] => destruct (Z.ltb_spec a b); try lia
    | |- context [?a <=? ?b] => destruct (Z.leb_spec a b); try lia
    end.

Lemma testbit_byte_mask x k i :
  0 <= k ->
  Z.testbit (Z.land x (Z.shiftl (Z.ones 8) k)) i =
  Z.testbit x i && ((k <=? i) && (i <? k + 8)).
Proof.
  intros Hk. rewrite Z.land_spec. f_equal.
  destruct (Z.ltb_spec i 0).
  - rewrite Z.testbit_neg_r by lia. destruct (Z.leb_spec k i); [lia|reflexivity].
  - rewrite Z.shiftl_spec by lia.
    destruct (Z.leb_spec k i).
    + rewrite Z.testbit_ones_nonneg by lia. cbn [andb].
      destruct (Z.ltb_spec (i - k) 8), (Z.ltb_spec i (k + 8)); lia || reflexivity.
    + now rewrite Z.testbit_neg_r by lia.
Qed.

Ltac swap_bits :=
  rewrite ?Z.lor_spec, ?Z.shiftl_spec, ?Z.shiftr_spec, ?testbit_byte_mask by lia;
  prune_ltb; cbn [andb orb];
  rewrite ?andb_true_r, ?andb_false_r, ?orb_false_r, ?orb_false_l.

Lemma Byteswap16Impl_testbit x i :
  0 <= i ->
  Z.testbit (Byteswap16Impl x) i = (i <? 16) && Z.testbit x (i + 8 - 16 * (i / 8)).
Proof.
  intros Hi. unfold Byteswap16Impl, to_uint.
  change 255 with (Z.shiftl (Z.ones 8) 0). change 65280 with (Z.shiftl (Z.ones 8) 8).
  rewrite Z.testbit_mod_pow2 by lia.
  destruct (Z.ltb_spec i 16); [|reflexivity]. cbn [andb].
  assert (0 <= i < 8 \/ 8 <= i < 16) as [H1|H1] by lia.
  - replace (i / 8) with 0 by (Z.to_euclidean_division_equations; lia).
    swap_bits. f_equal. lia.
  - replace (i / 8) with 1 by (Z.to_euclidean_division_equations; lia).
    swap_bits. f_equal. lia.
Qed.

Lemma Byteswap32Impl_testbit x i :
  0 <= i ->
  Z.testbit (Byteswap32Impl x) i = (i <? 32) && Z.testbit x (i + 24 - 16 * (i / 8)).
Proof.
  intros Hi. unfold Byteswap32Impl, to_uint.
  change 255 with (Z.shiftl (Z.ones 8) 0). change 65280 with (Z.shiftl (Z.ones 8) 8).
  change 16711680 with (Z.shiftl (Z.ones 8) 16).
  change 4278190080 with (Z.shiftl (Z.ones 8) 24).
  rewrite Z.testbit_mod_pow2 by lia.
  destruct (Z.ltb_spec i 32); [|reflexivity]. cbn [andb].
  assert (0 <= i < 8 \/ 8 <= i < 16 \/ 16 <= i < 24 \/ 24 <= i < 32)
    as [H1|[H1|[H1|H1]]] by lia.
  - replace (i / 8) with 0 by (Z.to_euclidean_division_equations; lia).
    swap_bits. f_equal. lia.
  - replace (i / 8) with 1 by (Z.to_euclidean_division_equations; lia).
    swap_bits. f_equal. lia.
  - replace (i / 8) with 2 by (Z.to_euclidean_division_equations; lia).
    swap_bits. f_equal. lia.
  - replace (i / 8) with 3 by (Z.to_euclidean_division_equations; lia).
    swap_bits. f_equal. lia.
Qed.

Lemma Byteswap64Impl_testbit x i :
  0 <= i ->
  Z.testbit (Byteswap64Impl x) i = (i <? 64) && Z.testbit x (i + 56 - 16 * (i / 8)).
Proof.
  intros Hi. unfold Byteswap64Impl, to_uint.
  change 255 with (Z.shiftl (Z.ones 8) 0). change 65280 with (Z.shiftl (Z.ones 8) 8).
  change 16711680 with (Z.shiftl (Z.ones 8) 16).
  change 4278190080 with (Z.shiftl (Z.ones 8) 24).
  change 1095216660480 with (Z.shiftl (Z.ones 8) 32).
  change 280375465082880 with (Z.shiftl (Z.ones 8) 40).
  change 71776119061217280 with (Z.shiftl (Z.ones 8) 48).
  change 18374686479671623680 with (Z.shiftl (Z.ones 8) 56).
  rewrite Z.testbit_mod_pow2 by lia.
  destruct (Z.ltb_spec i 64); [|reflexivity]. cbn [andb].
  assert (0 <= i < 8 \/ 8 <= i < 16 \/ 16 <= i < 24 \/ 24 <= i < 32 \/
          32 <= i < 40 \/ 40 <= i < 48 \/ 48 <= i < 56 \/ 56 <= i < 64)
    as [H1|[H1|[H1|[H1|[H1|[H1|[H1|H1]]]]]]] by lia.
  - replace (i / 8) with 0 by (Z.to_euclidean_division_equations; lia).
    swap_bits. f_equal. lia.
  - replace (i / 8) with 1 by (Z.to_euclidean_division_equations; lia).
    swap_bits. f_equal. lia.
  - replace (i / 8) with 2 by (Z.to_euclidean_division_equations; lia).
    swap_bits. f_equal. lia.
  - replace (i / 8) with 3 by (Z.to_euclidean_division_equations; lia).
    swap_bits. f_equal. lia.
  - replace (i / 8) with 4 by (Z.to_euclidean_division_equations; lia).
    swap_bits. f_equal. lia.
  - replace (i / 8) with 5 by (Z.to_euclidean_division_equations; lia).
    swap_bits. f_equal. lia.
  - replace (i / 8) with 6 by (Z.to_euclidean_division_equations; lia).
    swap_bits. f_equal. lia.
  - replace (i / 8) with 7 by (Z.to_euclidean_division_equations; lia).
    swap_bits. f_equal. lia.
Qed.

Lemma to_uint_to_sint W y : 0 < W -> to_uint W (to_sint W y) = to_uint W y.
Proof.
  intros HW. unfold to_uint, to_sint. rewrite Zminus_mod_idemp_l. f_equal. lia.
Qed.

Lemma to_sint_to_uint W y : 0 < W -> to_sint W (to_uint W y) = to_sint W y.
Proof.
  intros HW. unfold to_uint, to_sint. now rewrite Zplus_mod_idemp_l.
Qed.

Lemma to_uint_idem W y : 0 < W -> to_uint W (to_uint W y) = to_uint W y.
Proof. intros HW. unfold to_uint. apply Z.mod_mod. apply Z.pow_nonzero; lia. Qed.

Lemma to_uint_testbit W y i : 0 <= W ->
  Z.testbit (to_uint W y) i = (i <? W) && Z.testbit y i.
Proof. intros HW. unfold to_uint. now apply Z.testbit_mod_pow2. Qed.

Lemma to_sint_testbit W y i :
  0 < W -> i < W -> Z.testbit (to_sint W y) i = Z.testbit y i.
Proof.
  intros HW Hi.
  rewrite <- (Z.mod_pow2_bits_low (to_sint W y) W i) by lia.
  fold (to_uint W (to_sint W y)). rewrite to_uint_to_sint by lia.
  unfold to_uint. apply Z.mod_pow2_bits_low. lia.
Qed.

Lemma static_cast_testbit T y i :
  i < 8 * bytes_of (size_of T) -> Z.testbit (static_cast T y) i = Z.testbit y i.
Proof.
  intros Hi. unfold static_cast.
  assert (0 < 8 * bytes_of (size_of T)) by (destruct (size_of T); cbn; lia).
  destruct (is_signed T).
  - now apply to_sint_testbit.
  - rewrite to_uint_testbit by lia.
    destruct (Z.ltb_spec i (8 * bytes_of (size_of T))); [reflexivity|lia].
Qed.

Lemma static_cast_to_uint T y :
  static_cast T (to_uint (8 * bytes_of (size_of T)) y) = static_cast T y.
Proof.
  assert (0 < 8 * bytes_of (size_of T)) by (destruct (size_of T); cbn; lia).
  unfold static_cast. destruct (is_signed T).
  - now apply to_sint_to_uint.
  - now apply to_uint_idem.
Qed.

Lemma to_uint_static_cast T y :
  to_uint (8 * bytes_of (size_of T)) (static_cast T y) =
  to_uint (8 * bytes_of (size_of T)) y.
Proof.
  assert (0 < 8 * bytes_of (size_of T)) by (destruct (size_of T); cbn; lia).
  unfold static_cast. destruct (is_signed T).
  - now apply to_uint_to_sint.
  - now apply to_uint_idem.
Qed.

Lemma swap_unsigned_testbit n x i :
  0 <= i -> n <> Size1 ->
  Z.testbit (swap_unsigned n x) i =
  (i <? 8 * bytes_of n) &&
  Z.testbit x (i + 8 * (bytes_of n - 1) - 16 * (i / 8)).
Proof.
  intros Hi Hn. destruct n; cbn [swap_unsigned bytes_of]; [contradiction|..].
  - now apply Byteswap16Impl_testbit.
  - now apply Byteswap32Impl_testbit.
  - now apply Byteswap64Impl_testbit.
Qed.

Lemma nat_of_size_eq n : n = Size1 \/ n <> Size1.
Proof. destruct n; [now left|right; discriminate..]. Qed.

Lemma bytes_of_wide n : n <> Size1 -> bytes_of n = 2 \/ bytes_of n = 4 \/ bytes_of n = 8.
Proof. destruct n; cbn; intros H; try contradiction; lia. Qed.

Lemma swap_unsigned_range n x :
  n <> Size1 -> to_uint (8 * bytes_of n) (swap_unsigned n x) = swap_unsigned n x.
Proof.
  intros Hn. destruct n; try contradiction; cbn [swap_unsigned bytes_of];
    unfold Byteswap16Impl, Byteswap32Impl, Byteswap64Impl; apply to_uint_idem; lia.
Qed.

Lemma swap_unsigned_twice n x :
  n <> Size1 -> swap_unsigned n (swap_unsigned n x) = to_uint (8 * bytes_of n) x.
Proof.
  intros Hn. pose proof (bytes_of_wide n Hn) as Hb.
  apply Z.bits_inj'. intros i Hi.
  rewrite to_uint_testbit by lia.
  rewrite swap_unsigned_testbit by assumption.
  destruct (Z.ltb_spec i (8 * bytes_of n)); [|reflexivity]. cbn [andb].
  rewrite swap_unsigned_testbit
    by (try assumption; Z.to_euclidean_division_equations; lia).
  replace (i + 8 * (bytes_of n - 1) - 16 * (i / 8) <? 8 * bytes_of n) with true
    by (symmetry; apply Z.ltb_lt; Z.to_euclidean_division_equations; lia).
  cbn [andb]. f_equal. Z.to_euclidean_division_equations; lia.
Qed.

Lemma ByteswapImpl_wide T x :
  size_of T <> Size1 ->
  ByteswapImpl T x =
  static_cast T (swap_unsigned (size_of T) (to_uint (8 * bytes_of (size_of T)) x)).
Proof.
  intros Hn. unfold ByteswapImpl.
  destruct (size_of T); try contradiction; reflexivity.
Qed.

Lemma static_cast_idem T y : static_cast T (static_cast T y) = static_cast T y.
Proof.
  rewrite <- (static_cast_to_uint T (static_cast T y)), to_uint_static_cast.
  apply static_cast_to_uint.
Qed.

(** X13: [byteswap<T>] is an involution on the values of [T], for the signed
    and the unsigned types of 1, 2, 4 and 8 bytes. *)
Theorem byteswap_involutive (T : int_type) (x : Z) :
  in_range T x ->
  byteswap T (byteswap T x) = x /\ in_range T (byteswap T x).
Proof.
  unfold in_range, byteswap. intros Hx.
  destruct (size_of T) eqn:En.
  - unfold ByteswapImpl. rewrite En. split; [reflexivity|exact Hx].
  - assert (size_of T <> Size1) as Hn by (rewrite En; discriminate).
    rewrite !ByteswapImpl_wide by assumption. split.
    + rewrite to_uint_static_cast, swap_unsigned_range, swap_unsigned_twice
        by assumption.
      now rewrite !static_cast_to_uint.
    + apply static_cast_idem.
  - assert (size_of T <> Size1) as Hn by (rewrite En; discriminate).
    rewrite !ByteswapImpl_wide by assumption. split.
    + rewrite to_uint_static_cast, swap_unsigned_range, swap_unsigned_twice
        by assumption.
      now rewrite !static_cast_to_uint.
    + apply static_cast_idem.
  - assert (size_of T <> Size1) as Hn by (rewrite En; discriminate).
    rewrite !ByteswapImpl_wide by assumption. split.
    + rewrite to_uint_static_cast, swap_unsigned_range, swap_unsigned_twice
        by assumption.
      now rewrite !static_cast_to_uint.
    + apply static_cast_idem.
Qed.

Lemma byteswap_byte_of (T : int_type) (x k : Z) :
  0 <= k < bytes_of (size_of T) ->
  byte_of k (byteswap T x) = byte_of (bytes_of (size_of T) - 1 - k) x.
Proof.
  intros Hk. unfold byteswap.
  destruct (nat_of_size_eq (size_of T)) as [E|Hn].
  - unfold ByteswapImpl. rewrite E in *. cbn [bytes_of] in *.
    replace k with 0 by lia. reflexivity.
  - rewrite ByteswapImpl_wide by assumption.
    pose proof (bytes_of_wide _ Hn) as Hb.
    unfold byte_of. change 255 with (Z.ones 8).
    rewrite !Z.land_ones by lia. apply Z.bits_inj'. intros i Hi.
    rewrite !Z.testbit_mod_pow2 by lia.
    destruct (Z.ltb_spec i 8); [|reflexivity]. cbn [andb].
    rewrite !Z.shiftr_spec by lia.
    rewrite static_cast_testbit by lia.
    rewrite swap_unsigned_testbit by (lia || assumption).
    rewrite to_uint_testbit by lia.
    replace ((i + 8 * k) / 8) with k by (Z.to_euclidean_division_equations; lia).
    replace (i + 8 * k <? 8 * bytes_of (size_of T)) with true
      by (symmetry; apply Z.ltb_lt; lia).
    replace (i + 8 * k + 8 * (bytes_of (size_of T) - 1) - 16 * k
               <? 8 * bytes_of (size_of T)) with true
      by (symmetry; apply Z.ltb_lt; lia).
    cbn [andb]. f_equal. lia.
Qed.

(** X14: byte [k] of [byteswap<T>(x)] is byte [sizeof(T) - 1 - k] of [x]. *)
Theorem byteswap_reverses_bytes (T : int_type) (x k : Z) :
  0 <= k < bytes_of (size_of T) ->
  byte_of k (byteswap T x) = byte_of (bytes_of (size_of T) - 1 - k) x.
Proof. apply byteswap_byte_of. Qed.

Lemma byte_of_range k z : 0 <= byte_of k z < 256.
Proof.
  unfold byte_of. change 255 with (Z.ones 8). rewrite Z.land_ones by lia.
  change (2 ^ 8) with 256. apply Z.mod_pos_bound. lia.
Qed.

Lemma byte_of_testbit k z i :
  0 <= k -> 0 <= i ->
  Z.testbit (byte_of k z) i = (i <? 8) && Z.testbit z (i + 8 * k).
Proof.
  intros Hk Hi. unfold byte_of. change 255 with (Z.ones 8).
  rewrite Z.land_ones, Z.testbit_mod_pow2, Z.shiftr_spec by lia. reflexivity.
Qed.

Lemma le_value_testbit bs :
  Forall (fun b => 0 <= b < 256) bs ->
  forall i, 0 <= i ->
  Z.testbit (le_value bs) i = Z.testbit (nth (Z.to_nat (i / 8)) bs 0) (i mod 8).
Proof.
  induction 1 as [|b bs Hb _ IH]; intros i Hi.
  - cbn [le_value fold_right]. destruct (Z.to_nat (i / 8)); now rewrite !Z.bits_0.
  - cbn [le_value fold_right]. fold (le_value bs).
    rewrite Z.lor_spec. destruct (Z.ltb_spec i 8) as [H8|H8].
    + rewrite Z.shiftl_spec, (Z.testbit_neg_r (le_value bs) (i - 8)), orb_false_r
        by lia.
      rewrite (Z.div_small i 8), (Z.mod_small i 8) by lia.
      reflexivity.
    + rewrite (testbit_above 8 b i) by (change (2 ^ 8) with 256; lia).
      rewrite Z.shiftl_spec, IH by lia. cbn [orb].
      replace (Z.to_nat (i / 8)) with (S (Z.to_nat ((i - 8) / 8)))
        by (Z.to_euclidean_division_equations; lia).
      cbn [nth]. f_equal. Z.to_euclidean_division_equations; lia.
Qed.

Lemma byte_of_le_value bs k :
  Forall (fun b => 0 <= b < 256) bs -> (k < length bs)%nat ->
  byte_of (Z.of_nat k) (le_value bs) = nth k bs 0.
Proof.
  intros Hbs Hk. apply Z.bits_inj'. intros i Hi.
  rewrite byte_of_testbit by lia.
  assert (0 <= nth k bs 0 < 256) as Hn.
  { rewrite Forall_forall in Hbs. apply Hbs. now apply nth_In. }
  destruct (Z.ltb_spec i 8) as [H8|H8]; cbn [andb].
  - rewrite le_value_testbit by (assumption || lia).
    replace ((i + 8 * Z.of_nat k) / 8) with (Z.of_nat k)
      by (Z.to_euclidean_division_equations; lia).
    replace ((i + 8 * Z.of_nat k) mod 8) with i
      by (Z.to_euclidean_division_equations; lia).
    now rewrite Nat2Z.id.
  - symmetry. apply (testbit_above 8); [lia|change (2 ^ 8) with 256; lia|lia].
Qed.

Lemma le_value_range bs :
  Forall (fun b => 0 <= b < 256) bs ->
  to_uint (8 * Z.of_nat (length bs)) (le_value bs) = le_value bs.
Proof.
  intros Hbs. apply Z.bits_inj'. intros i Hi.
  rewrite to_uint_testbit by lia.
  destruct (Z.ltb_spec i (8 * Z.of_nat (length bs))); [reflexivity|].
  cbn [andb]. rewrite le_value_testbit by (assumption || lia).
  rewrite nth_overflow by (Z.to_euclidean_division_equations; lia).
  now rewrite Z.bits_0.
Qed.

(** Two unsigned integers of [n] bytes with the same bytes are equal. *)
Lemma bytes_ext (n : nat) x y :
  to_uint (8 * Z.of_nat n) x = x -> to_uint (8 * Z.of_nat n) y = y ->
  (forall k, (k < n)%nat -> byte_of (Z.of_nat k) x = byte_of (Z.of_nat k) y) ->
  x = y.
Proof.
  intros Hx Hy H. rewrite <- Hx, <- Hy. apply Z.bits_inj'. intros i Hi.
  rewrite !to_uint_testbit by lia.
  destruct (Z.ltb_spec i (8 * Z.of_nat n)); [|reflexivity]. cbn [andb].
  specialize (H (Z.to_nat (i / 8)) ltac:(Z.to_euclidean_division_equations; lia)).
  apply (f_equal (fun z => Z.testbit z (i mod 8))) in H.
  rewrite !byte_of_testbit in H by (Z.to_euclidean_division_equations; lia).
  replace (i mod 8 + 8 * Z.of_nat (Z.to_nat (i / 8))) with i in H
    by (Z.to_euclidean_division_equations; lia).
  replace (i mod 8 <? 8) with true in H
    by (symmetry; apply Z.ltb_lt; Z.to_euclidean_division_equations; lia).
  exact H.
Qed.

Lemma to_uint_idem_any W y : to_uint W (to_uint W y) = to_uint W y.
Proof.
  unfold to_uint. destruct (Z.eq_dec (2 ^ W) 0) as [E|E].
  - rewrite E. now rewrite !Z.mod_0_r.
  - now apply Z.mod_mod.
Qed.

Lemma bytes_at_length m p n : length (bytes_at m p n) = n.
Proof. unfold bytes_at. now rewrite length_map, length_seq. Qed.

Lemma bytes_at_nth m p n k :
  (k < n)%nat -> nth k (bytes_at m p n) 0 = load m (p + Z.of_nat k).
Proof.
  intros Hk. unfold bytes_at.
  rewrite (nth_indep _ 0 (load m (p + Z.of_nat 0)))
    by (rewrite length_map, length_seq; lia).
  rewrite (map_nth (fun k => load m (p + Z.of_nat k))), seq_nth by lia.
  reflexivity.
Qed.

Lemma bytes_at_range m p n : Forall (fun b => 0 <= b < 256) (bytes_at m p n).
Proof.
  apply Forall_forall. intros b Hb. unfold bytes_at in Hb.
  apply in_map_iff in Hb. destruct Hb as (k & <- & _). apply load_range.
Qed.

Lemma le_bytes_length n x : length (le_bytes n x) = n.
Proof. unfold le_bytes. now rewrite length_map, length_seq. Qed.

Lemma le_bytes_nth n x k :
  (k < n)%nat -> nth k (le_bytes n x) 0 = byte_of (Z.of_nat k) x.
Proof.
  intros Hk. unfold le_bytes.
  rewrite (nth_indep _ 0 (byte_of (Z.of_nat 0) x))
    by (rewrite length_map, length_seq; lia).
  rewrite (map_nth (fun k => byte_of (Z.of_nat k) x)), seq_nth by lia.
  reflexivity.
Qed.

Lemma le_bytes_range n x : Forall (fun b => 0 <= b < 256) (le_bytes n x).
Proof.
  apply Forall_forall. intros b Hb. unfold le_bytes in Hb.
  apply in_map_iff in Hb. destruct Hb as (k & <- & _). apply byte_of_range.
Qed.

Lemma le_value_le_bytes n x :
  le_value (le_bytes n x) = to_uint (8 * Z.of_nat n) x.
Proof.
  apply (bytes_ext n).
  - rewrite <- (le_bytes_length n x) at 1. apply le_value_range, le_bytes_range.
  - apply to_uint_idem_any.
  - intros k Hk.
    rewrite byte_of_le_value, le_bytes_nth
      by (try apply le_bytes_range; rewrite ?le_bytes_length; lia).
    apply Z.bits_inj'. intros i Hi. rewrite !byte_of_testbit by lia.
    rewrite to_uint_testbit by lia.
    destruct (Z.ltb_spec i 8); [|reflexivity]. cbn [andb].
    destruct (Z.ltb_spec (i + 8 * Z.of_nat k) (8 * Z.of_nat n)); [reflexivity|lia].
Qed.

Lemma byteswap_unsigned_range n x :
  n <> Size1 ->
  to_uint (8 * bytes_of n) (byteswap (IntType n false) x) =
  byteswap (IntType n false) x.
Proof.
  intros Hn. unfold byteswap. rewrite ByteswapImpl_wide by assumption.
  unfold static_cast. cbn [is_signed size_of]. apply to_uint_idem_any.
Qed.

Lemma bytes_of_nat n : Z.of_nat (Z.to_nat (bytes_of n)) = bytes_of n.
Proof. destruct n; reflexivity. Qed.

Lemma byteswap_le_value n bs :
  n <> Size1 -> length bs = Z.to_nat (bytes_of n) ->
  Forall (fun b => 0 <= b < 256) bs ->
  byteswap (IntType n false) (le_value bs) = le_value (rev bs).
Proof.
  intros Hn Hlen Hbs. apply (bytes_ext (Z.to_nat (bytes_of n))).
  - rewrite bytes_of_nat. now apply byteswap_unsigned_range.
  - rewrite <- Hlen, <- length_rev. apply le_value_range.
    now apply Forall_rev.
  - intros k Hk.
    rewrite (byteswap_byte_of (IntType n false)) by (cbn [size_of]; lia).
    cbn [size_of].
    replace (bytes_of n - 1 - Z.of_nat k)
      with (Z.of_nat (length bs - S k)) by lia.
    rewrite !byte_of_le_value
      by (try apply Forall_rev; try assumption; rewrite ?length_rev; lia).
    rewrite rev_nth by lia. reflexivity.
Qed.

Section BytesProofs.
Context {pf : Platform}.

Lemma get_Java_big_endian n m p :
  n <> Size1 ->
  get_Java n m p = be_value (bytes_at m p (Z.to_nat (bytes_of n))).
Proof.
  intros Hn. unfold get_Java, BytesSwapImpl, is_Java_byte_ordering_different,
    UnalignedAccess.load, object_value, be_value.
  destruct NATIVE; cbn [Endian.eqb Endian.JAVA negb].
  - apply byteswap_le_value; [assumption|apply bytes_at_length|apply bytes_at_range].
  - reflexivity.
Qed.

Lemma load_store_bytes_in m p bs k :
  (k < length bs)%nat ->
  load (store_bytes m p bs) (p + Z.of_nat k) = to_u_char (nth k bs 0).
Proof.
  intros Hk. unfold load, store_bytes.
  destruct (Z.leb_spec p (p + Z.of_nat k)); [|lia].
  destruct (Z.ltb_spec (p + Z.of_nat k) (p + Z.of_nat (length bs))); [|lia].
  cbn [andb]. replace (p + Z.of_nat k - p) with (Z.of_nat k) by lia.
  rewrite Nat2Z.id. apply to_u_char_idem.
Qed.

Lemma load_store_bytes_out m p bs j :
  j < p \/ p + Z.of_nat (length bs) <= j ->
  load (store_bytes m p bs) j = load m j.
Proof.
  intros Hj. unfold load, store_bytes.
  destruct (Z.leb_spec p j), (Z.ltb_spec j (p + Z.of_nat (length bs)));
    cbn [andb]; lia || reflexivity.
Qed.

Lemma put_Java_bytes n m p x k :
  n <> Size1 -> (k < Z.to_nat (bytes_of n))%nat ->
  load (put_Java n m p x) (p + Z.of_nat k) =
  byte_of (bytes_of n - 1 - Z.of_nat k) x.
Proof.
  intros Hn Hk. unfold put_Java, UnalignedAccess.store.
  assert (length (object_bytes (Z.to_nat (bytes_of n))
                    (BytesSwapImpl (IntType n false) x))
          = Z.to_nat (bytes_of n)) as Hlen.
  { unfold object_bytes. destruct NATIVE; rewrite ?length_rev; apply le_bytes_length. }
  rewrite load_store_bytes_in by lia.
  unfold object_bytes, BytesSwapImpl, is_Java_byte_ordering_different.
  destruct NATIVE; cbn [Endian.eqb Endian.JAVA negb].
  - rewrite le_bytes_nth by lia.
    rewrite (byteswap_byte_of (IntType n false)) by (cbn [size_of]; lia).
    cbn [size_of]. apply to_u_char_small, byte_of_range.
  - rewrite rev_nth, le_bytes_length, le_bytes_nth
      by (rewrite ?le_bytes_length; lia).
    replace (Z.of_nat (Z.to_nat (bytes_of n) - S k))
      with (bytes_of n - 1 - Z.of_nat k) by lia.
    apply to_u_char_small, byte_of_range.
Qed.

Lemma put_Java_frame n m p x j :
  j < p \/ p + bytes_of n <= j ->
  load (put_Java n m p x) j = load m j.
Proof.
  intros Hj. unfold put_Java, UnalignedAccess.store.
  apply load_store_bytes_out.
  assert (length (object_bytes (Z.to_nat (bytes_of n))
                    (BytesSwapImpl (IntType n false) x))
          = Z.to_nat (bytes_of n)) as ->.
  { unfold object_bytes. destruct NATIVE; rewrite ?length_rev; apply le_bytes_length. }
  rewrite bytes_of_nat. exact Hj.
Qed.

Lemma get_put_Java n m p x :
  n <> Size1 ->
  get_Java n (put_Java n m p x) p = to_uint (8 * bytes_of n) x.
Proof.
  intros Hn. rewrite get_Java_big_endian by assumption. unfold be_value.
  assert (bytes_at (put_Java n m p x) p (Z.to_nat (bytes_of n)) =
          rev (le_bytes (Z.to_nat (bytes_of n)) x)) as ->.
  { apply (nth_ext _ _ 0 0).
    - now rewrite bytes_at_length, length_rev, le_bytes_length.
    - intros k Hk. rewrite bytes_at_length in Hk.
      rewrite bytes_at_nth, put_Java_bytes by assumption.
      rewrite rev_nth, le_bytes_length, le_bytes_nth
        by (rewrite ?le_bytes_length; lia).
      f_equal. lia. }
  rewrite rev_involutive, le_value_le_bytes, bytes_of_nat. reflexivity.
Qed.

Lemma get_put_native n m p x :
  UnalignedAccess.load n (UnalignedAccess.store n m p x) p =
  to_uint (8 * bytes_of n) x.
Proof.
  unfold UnalignedAccess.load, UnalignedAccess.store, object_value, object_bytes.
  assert (forall bs, length bs = Z.to_nat (bytes_of n) ->
            Forall (fun b => 0 <= b < 256) bs ->
            bytes_at (store_bytes m p bs) p (Z.to_nat (bytes_of n)) = bs) as E.
  { intros bs Hlen Hbs. apply (nth_ext _ _ 0 0).
    - now rewrite bytes_at_length.
    - intros k Hk. rewrite bytes_at_length in Hk.
      rewrite bytes_at_nth, load_store_bytes_in by lia.
      apply to_u_char_small. rewrite Forall_forall in Hbs. apply Hbs.
      apply nth_In. lia. }
  destruct NATIVE.
  - rewrite E by (apply le_bytes_length || apply le_bytes_range).
    rewrite le_value_le_bytes, bytes_of_nat. reflexivity.
  - rewrite E by (rewrite ?length_rev; apply le_bytes_length ||
                  apply Forall_rev, le_bytes_range).
    rewrite rev_involutive, le_value_le_bytes, bytes_of_nat. reflexivity.
Qed.

(** X15: [get_Java_u2], [get_Java_u4] and [get_Java_u8] return the value
    whose bytes are in the buffer most significant first, on a little-endian
    and on a big-endian machine alike. *)
Theorem get_Java_is_big_endian (m : buffer_t) (p : Z) :
  Bytes.get_Java_u2 m p = be_value (bytes_at m p 2) /\
  Bytes.get_Java_u4 m p = be_value (bytes_at m p 4) /\
  Bytes.get_Java_u8 m p = be_value (bytes_at m p 8).
Proof.
  split; [|split].
  - apply (get_Java_big_endian Size2). discriminate.
  - apply (get_Java_big_endian Size4). discriminate.
  - apply (get_Java_big_endian Size8). discriminate.
Qed.

(** X16: [put_Java_u2], [put_Java_u4] and [put_Java_u8] store the bytes of
    the value most significant first, whatever the native byte order, and
    change no other cell. *)
Theorem put_Java_writes_big_endian (m : buffer_t) (p x : Z) :
  bytes_at (Bytes.put_Java_u4 m p x) p 4 =
    [byte_of 3 x; byte_of 2 x; byte_of 1 x; byte_of 0 x] /\
  bytes_at (Bytes.put_Java_u2 m p x) p 2 = [byte_of 1 x; byte_of 0 x] /\
  bytes_at (Bytes.put_Java_u8 m p x) p 8 =
    [byte_of 7 x; byte_of 6 x; byte_of 5 x; byte_of 4 x;
     byte_of 3 x; byte_of 2 x; byte_of 1 x; byte_of 0 x] /\
  (forall j, j < p \/ p + 4 <= j -> load (Bytes.put_Java_u4 m p x) j = load m j) /\
  (forall j, j < p \/ p + 2 <= j -> load (Bytes.put_Java_u2 m p x) j = load m j) /\
  (forall j, j < p \/ p + 8 <= j -> load (Bytes.put_Java_u8 m p x) j = load m j).
Proof.
  split; [|split; [|split; [|split; [|split]]]].
  - unfold bytes_at. cbn [seq map].
    rewrite !(put_Java_bytes Size4 m p x) by (discriminate || (cbn; lia)).
    reflexivity.
  - unfold bytes_at. cbn [seq map].
    rewrite !(put_Java_bytes Size2 m p x) by (discriminate || (cbn; lia)).
    reflexivity.
  - unfold bytes_at. cbn [seq map].
    rewrite !(put_Java_bytes Size8 m p x) by (discriminate || (cbn; lia)).
    reflexivity.
  - intros j Hj. now apply (put_Java_frame Size4).
  - intros j Hj. now apply (put_Java_frame Size2).
  - intros j Hj. now apply (put_Java_frame Size8).
Qed.

(** X17: a [get] after the [put] of the same kind at the same address
    returns the value written, as an unsigned integer of that size. *)
Theorem Bytes_round_trip (m : buffer_t) (p x : Z) :
  Bytes.get_Java_u2 (Bytes.put_Java_u2 m p x) p = to_uint 16 x /\
  Bytes.get_Java_u4 (Bytes.put_Java_u4 m p x) p = to_uint 32 x /\
  Bytes.get_Java_u8 (Bytes.put_Java_u8 m p x) p = to_uint 64 x /\
  Bytes.get_native_u2 (Bytes.put_native_u2 m p x) p = to_uint 16 x /\
  Bytes.get_native_u4 (Bytes.put_native_u4 m p x) p = to_uint 32 x /\
  Bytes.get_native_u8 (Bytes.put_native_u8 m p x) p = to_uint 64 x.
Proof.
  split; [|split; [|split; [|split; [|split]]]].
  - apply (get_put_Java Size2). discriminate.
  - apply (get_put_Java Size4). discriminate.
  - apply (get_put_Java Size8). discriminate.
  - apply (get_put_native Size2).
  - apply (get_put_native Size4).
  - apply (get_put_native Size8).
Qed.
End BytesProofs.

Lemma write_int_size_witness :
  SW._position (@SW.write_int sample_runtime 4096 sample_stream) =
    SW._position sample_stream + Z.of_nat 3 /\
  SW.byte_pos_ (@SW.write_int sample_runtime 4096 sample_stream) =
    SW.byte_pos_ sample_stream.
Proof.
  apply (@write_int_size sample_runtime 4096 3 sample_stream).
  - unfold is_juint; lia.
  - apply create_inv.
  - lia.
  - change (2 ^ (6 * (Z.of_nat 3 - 1))) with 4096.
    change (2 ^ (6 * Z.of_nat 3)) with 262144. lia.
Defined.

Lemma write_ints_size_witness :
  fst (@SW.position sample_runtime
         (@SW.write_ints sample_runtime sample_words sample_stream)) =
  (bit_cursor sample_stream + total_bits sample_words + 7) / 8.
Proof.
  apply (@write_ints_size sample_runtime sample_words sample_stream).
  apply create_inv.
Defined.

Lemma sample_started_inv : cursor_inv sample_started.
Proof. apply write_int_inv, create_inv. Qed.

Lemma sample_started_position : SW._position sample_started = 2.
Proof. reflexivity. Qed.

Lemma sparse_writes_keep_earlier_bytes_witness :
  load (SW._buffer (@SW.write_ints sample_runtime sample_words sample_started)) 0 =
    load (SW._buffer sample_started) 0 /\
  load (SW._buffer (snd (@SW.position sample_runtime
          (@SW.write_ints sample_runtime sample_words sample_started)))) 0 =
    load (SW._buffer sample_started) 0.
Proof.
  apply (@sparse_writes_keep_earlier_bytes sample_runtime sample_words
           sample_started 0).
  - exact sample_started_inv.
  - rewrite sample_started_position. lia.
Defined.

Lemma write_int_aligned_bytes_witness :
  bytes_at (SW._buffer (@SW.write_int sample_runtime 4096 sample_stream))
           (SW._position sample_stream) (length (SW.groups 4096)) =
    SW.groups 4096 /\
  SW.byte_pos_ (@SW.write_int sample_runtime 4096 sample_stream) = 0 /\
  SW.curr_byte_ (@SW.write_int sample_runtime 4096 sample_stream) = 0 /\
  @SW.position sample_runtime (@SW.write_int sample_runtime 4096 sample_stream) =
    (SW._position sample_stream + Z.of_nat (length (SW.groups 4096)),
     @SW.write_int sample_runtime 4096 sample_stream).
Proof.
  apply (@write_int_aligned_bytes sample_runtime 4096 sample_stream).
  - unfold is_juint; lia.
  - lia.
  - reflexivity.
  - reflexivity.
  - change (0 <= 0). lia.
Defined.

Lemma sample_stream_buffer_inv : buffer_inv (SW.base sample_stream).
Proof. unfold buffer_inv. change (0 <= 0 <= 2). lia. Qed.

Lemma sparse_writes_within_capacity_witness :
  buffer_inv (SW.base (@SW.write_ints sample_runtime sample_words sample_stream)) /\
  SW._size sample_stream <=
    SW._size (@SW.write_ints sample_runtime sample_words sample_stream) /\
  buffer_inv (SW.base (snd (@SW.position sample_runtime
                (@SW.write_ints sample_runtime sample_words sample_stream)))) /\
  SW._size sample_stream <=
    SW._size (snd (@SW.position sample_runtime
                (@SW.write_ints sample_runtime sample_words sample_stream))).
Proof.
  apply (@sparse_writes_within_capacity sample_runtime sample_words sample_stream).
  - change (0 < 5 < 2 ^ 30). lia.
  - exact sample_stream_buffer_inv.
  - change (0 + 6 * 6 < 2 ^ 30). lia.
Defined.

Lemma grow_makes_room_witness :
  @MAX_LENGTH sample_runtime <=
    WS._size (@WS.grow sample_runtime sample_byte_stream) -
    WS._position (@WS.grow sample_runtime sample_byte_stream) /\
  WS._size sample_byte_stream <=
    WS._size (@WS.grow sample_runtime sample_byte_stream) -
    WS._position (@WS.grow sample_runtime sample_byte_stream) /\
  buffer_inv (@WS.grow sample_runtime sample_byte_stream) /\
  WS.full (@WS.grow sample_runtime sample_byte_stream) = false.
Proof.
  apply (@grow_makes_room sample_runtime sample_byte_stream).
  - change (0 < 5 < 2 ^ 30). lia.
  - unfold buffer_inv. change (0 <= 0 <= 2). lia.
  - change (2 < 2 ^ 30). lia.
Defined.

Lemma read_int_without_final_group_witness :
  SR.read_int 1000
    {| SR._buffer := fun _ => 255; SR._position := 0; SR.byte_pos_ := 3 |} = None.
Proof.
  apply (read_int_without_final_group (fun _ => 255) 0 3 1000).
  - lia.
  - intros i _. reflexivity.
Defined.

Lemma read_int_zero_bit_witness :
  exists s',
    SR.read_int 0 sample_zero_reader = Some (0, s') /\
    SR._buffer s' = SR._buffer sample_zero_reader /\
    read_bit_cursor s' = read_bit_cursor sample_zero_reader + 1 /\
    0 <= SR.byte_pos_ s' < 8.
Proof.
  apply (read_int_zero_bit sample_zero_reader 0).
  - change (0 <= 0 < 8). lia.
  - reflexivity.
Defined.

Lemma reader_cursor_steps_witness :
  (0 <= fst (SR.read_byte_impl sample_ones_reader) < 256 /\
   SR._buffer (snd (SR.read_byte_impl sample_ones_reader)) =
     SR._buffer sample_ones_reader /\
   read_bit_cursor (snd (SR.read_byte_impl sample_ones_reader)) =
     read_bit_cursor sample_ones_reader + 8 /\
   SR.byte_pos_ (snd (SR.read_byte_impl sample_ones_reader)) =
     SR.byte_pos_ sample_ones_reader) /\
  (SR._buffer (snd (SR.read_zero sample_ones_reader)) =
     SR._buffer sample_ones_reader /\
   read_bit_cursor (snd (SR.read_zero sample_ones_reader)) =
     read_bit_cursor sample_ones_reader +
     (if fst (SR.read_zero sample_ones_reader) then 1 else 0) /\
   0 <= SR.byte_pos_ (snd (SR.read_zero sample_ones_reader)) < 8 /\
   fst (SR.read_zero sample_ones_reader) =
     negb (Z.testbit (load (SR._buffer sample_ones_reader)
                           (SR._position sample_ones_reader))
                     (7 - SR.byte_pos_ sample_ones_reader))).
Proof.
  apply (reader_cursor_steps sample_ones_reader).
  change (0 <= 0 < 8). lia.
Defined.

Lemma float_round_trip_witness :
  @RS.read_float sample_unsigned5 sample_move_bits
    {| RS._buffer := WS._buffer
         (@WS.write_float sample_runtime sample_unsigned5 sample_move_bits
            1065353216 sample_byte_stream);
       RS._position := WS._position sample_byte_stream |} =
  (1065353216,
   {| RS._buffer := WS._buffer
         (@WS.write_float sample_runtime sample_unsigned5 sample_move_bits
            1065353216 sample_byte_stream);
      RS._position := WS._position
         (@WS.write_float sample_runtime sample_unsigned5 sample_move_bits
            1065353216 sample_byte_stream) |}).
Proof.
  apply (@float_round_trip sample_runtime sample_unsigned5 sample_move_bits
           1065353216 sample_byte_stream).
  - exact sample_varint_round_trips.
  - exact sample_reverse_bits_involutive.
  - unfold is_jint; lia.
  - change (0 <= 0). lia.
  - intros j _. reflexivity.
Defined.

Lemma signed_int_round_trip_witness :
  @RS.read_signed_int sample_unsigned5
    {| RS._buffer := WS._buffer
         (@WS.write_signed_int sample_runtime sample_unsigned5 (-3) sample_byte_stream);
       RS._position := WS._position sample_byte_stream |} =
  (-3,
   {| RS._buffer := WS._buffer
         (@WS.write_signed_int sample_runtime sample_unsigned5 (-3) sample_byte_stream);
      RS._position := WS._position
         (@WS.write_signed_int sample_runtime sample_unsigned5 (-3)
            sample_byte_stream) |}).
Proof.
  apply (@signed_int_round_trip sample_runtime sample_unsigned5 (-3)
           sample_byte_stream).
  - exact sample_varint_round_trips.
  - exact sample_sign_fold_inverse.
  - unfold is_jint; lia.
  - change (0 <= 0). lia.
  - intros j _. reflexivity.
Defined.

Lemma byteswap_involutive_witness :
  byteswap (IntType Size4 true) (byteswap (IntType Size4 true) (-2)) = -2 /\
  in_range (IntType Size4 true) (byteswap (IntType Size4 true) (-2)).
Proof.
  apply (byteswap_involutive (IntType Size4 true) (-2)).
  reflexivity.
Defined.

Lemma byteswap_reverses_bytes_witness :
  byte_of 1 (byteswap (IntType Size8 false) 72623859790382856) =
  byte_of (bytes_of (size_of (IntType Size8 false)) - 1 - 1) 72623859790382856.
Proof.
  apply (byteswap_reverses_bytes (IntType Size8 false) 72623859790382856 1).
  cbn. lia.
Defined.
